(** * The extract tool: command-line parsing and the logger lifecycle

    A shallow embedding of [src/extract/main.cc]: the option parser
    [parse_cmd_args], the coordinator [run_in_loggers_fsm_t] that runs a
    blocking task between the activation and the deactivation of the
    loggers, and [main], which hosts both in a one-thread pool.

    The C library functions the parser calls ([strtol], [getopt_long]) are
    modelled in [Libc] and [Getopt] after their glibc behaviour on LP64
    Linux.  Declarations of the repository that live in headers outside
    [main.cc] are modelled where they are used and marked as such. *)

From Stdlib Require Import ZArith List String Ascii Bool Lia.
From Stdlib Require Import DecimalString DecimalZ DecimalPos DecimalN.
Import ListNotations.

Local Open Scope string_scope.
Local Open Scope list_scope.
Local Open Scope Z_scope.

(** ** C library: character classes, [strtol], integer conversions *)

Module Libc.

Definition LONG_MAX : Z := 2 ^ 63 - 1.
Definition LONG_MIN : Z := - 2 ^ 63.
Definition INT_MAX : Z := 2 ^ 31 - 1.

(** [isspace] in the C locale: space, \t, \n, \v, \f, \r. *)
Definition isspace (c : ascii) : bool :=
  let n := nat_of_ascii c in
  (n =? 32)%nat || ((9 <=? n)%nat && (n <=? 13)%nat).

Definition isdigit (c : ascii) : bool :=
  let n := nat_of_ascii c in
  (48 <=? n)%nat && (n <=? 57)%nat.

Definition digit_value (c : ascii) : Z := Z.of_nat (nat_of_ascii c) - 48.

Fixpoint skip_space (s : string) : string :=
  match s with
  | String c r => if isspace c then skip_space r else s
  | EmptyString => s
  end.

(** The digit loop of [strtol]: consumes the longest run of decimal digits,
    accumulating their value; returns the value and the unread rest. *)
Fixpoint digits (s : string) (acc : Z) : Z * string :=
  match s with
  | String c r =>
      if isdigit c then digits r (10 * acc + digit_value c) else (acc, s)
  | EmptyString => (acc, s)
  end.

(** On overflow [strtol] returns LONG_MAX or LONG_MIN. *)
Definition clamp_long (v : Z) : Z :=
  if v >? LONG_MAX then LONG_MAX
  else if v <? LONG_MIN then LONG_MIN
  else v.

(** [strtol s] is [strtol(s, &endptr, 10)]: the converted value and the
    string [endptr] points to.  Leading white space is skipped, one sign is
    accepted, then decimal digits; with no digit at all the value is 0 and
    [endptr] is the start of [s]. *)
Definition strtol (s : string) : Z * string :=
  let s1 := skip_space s in
  let '(negative, s2) :=
    match s1 with
    | String c r =>
        if Ascii.eqb c "-" then (true, r)
        else if Ascii.eqb c "+" then (false, r)
        else (false, s1)
    | EmptyString => (false, s1)
    end in
  match s2 with
  | String c _ =>
      if isdigit c then
        let '(v, rest) := digits s2 0 in
        (clamp_long (if negative then - v else v), rest)
      else (0, s)
  | EmptyString => (0, s)
  end.

(** Conversion of a [long] to [int] (two's complement, 32 bits), as done
    by the assignment of [strtol]'s result to an [int] field. *)
Definition int_of_long (v : Z) : Z := (v + 2 ^ 31) mod 2 ^ 32 - 2 ^ 31.

(** [%d] of printf. *)
Definition format_d (v : Z) : string := NilZero.string_of_int (Z.to_int v).

(** The status a parent sees after [exit(status)]: the low eight bits. *)
Definition exit_status (status : Z) : Z := Z.land status 255.

End Libc.

(** ** C library: [getopt_long] *)

Module Getopt.

(** A [struct option] entry.  [flag] tells whether the entry has a flag
    pointer; the only one in this program points to [do_help]. *)
Record option_t := {
  name : string;
  has_arg : bool;          (* required_argument / no_argument *)
  flag : bool;
  val : Z
}.

(** The scanner's state between two calls.  [remaining] holds the elements
    argv[optind..argc) not yet looked at, [nextchar] the rest of the
    element being read as a cluster of short options, [skipped] the
    non-options passed over so far, which glibc permutes behind the
    options. *)
Record state := {
  remaining : list string;
  nextchar : string;
  skipped : list string
}.

(** What one call reports: the return value, [optarg], and the value
    stored through the flag pointer, if any. *)
Record result := {
  ret : Z;
  optarg : string;
  flag_store : option Z
}.

Definition code (c : ascii) : Z := Z.of_nat (nat_of_ascii c).

Definition question : Z := code "?".

Definition plain (r : Z) : result :=
  {| ret := r; optarg := ""; flag_store := None |}.

Definition with_arg (r : Z) (a : string) : result :=
  {| ret := r; optarg := a; flag_store := None |}.

(** Start of the scan: [optind = 1]. *)
Definition init (argv : list string) : state :=
  {| remaining := tl argv; nextchar := ""; skipped := [] |}.

(** An element is a non-option unless it starts with '-' and has at least
    one more character. *)
Definition is_nonoption (a : string) : bool :=
  match a with
  | String c (String _ _) => negb (Ascii.eqb c "-")
  | _ => true
  end.

Fixpoint skip_nonoptions (args : list string) : list string * list string :=
  match args with
  | a :: rest =>
      if is_nonoption a then
        let '(sk, rest') := skip_nonoptions rest in (a :: sk, rest')
      else ([], args)
  | [] => ([], [])
  end.

(** Lookup of a short option character in the option string:
    [None] when it is not an option, [Some true] when it takes an
    argument (no option of this program has an optional one). *)
Fixpoint short_lookup (optstring : string) (c : ascii) : option bool :=
  match optstring with
  | String d r =>
      if (Ascii.eqb c d) then
        match r with
        | String e _ => Some (Ascii.eqb e ":")
        | EmptyString => Some false
        end
      else short_lookup r c
  | EmptyString => None
  end.

Definition short_option (optstring : string) (c : ascii) (cs : string)
    (rest skip : list string) : result * state :=
  let st cs' rest' := {| remaining := rest'; nextchar := cs'; skipped := skip |} in
  if Ascii.eqb c ":" then (plain question, st cs rest)
  else
    match short_lookup optstring c with
    | None => (plain question, st cs rest)
    | Some false => (plain (code c), st cs rest)
    | Some true =>
        match cs with
        | String _ _ => (with_arg (code c) cs, st "" rest)
        | EmptyString =>
            match rest with
            | v :: rest' => (with_arg (code c) v, st "" rest')
            | [] => (plain question, st "" rest)
            end
        end
    end.

(** The name of a long option ends at the first '='. *)
Fixpoint split_eq (s : string) : string * option string :=
  match s with
  | String c r =>
      if Ascii.eqb c "=" then ("", Some r)
      else let '(n, v) := split_eq r in (String c n, v)
  | EmptyString => ("", None)
  end.

Definition same_target (p q : option_t) : bool :=
  Bool.eqb (has_arg p) (has_arg q) && Bool.eqb (flag p) (flag q)
  && (val p =? val q).

(** Exact match first; otherwise the abbreviation, unless two entries
    with different targets share the prefix. *)
Definition find_long (longopts : list option_t) (nm : string)
    : option (option option_t) :=
  match find (fun p => String.eqb (name p) nm) longopts with
  | Some p => Some (Some p)
  | None =>
      match filter (fun p => String.prefix nm (name p)) longopts with
      | [] => Some None
      | p :: others =>
          if forallb (same_target p) others then Some (Some p) else None
      end
  end.

Definition process_long_option (longopts : list option_t) (body : string)
    (rest skip : list string) : result * state :=
  let st rest' := {| remaining := rest'; nextchar := ""; skipped := skip |} in
  let '(nm, value) := split_eq body in
  let found p a rest' :=
    if flag p
    then ({| ret := 0; optarg := a; flag_store := Some (val p) |}, st rest')
    else (with_arg (val p) a, st rest') in
  match find_long longopts nm with
  | None => (plain question, st rest)              (* ambiguous *)
  | Some None => (plain question, st rest)         (* unrecognized *)
  | Some (Some p) =>
      match value with
      | Some v =>
          if has_arg p then found p v rest
          else (plain question, st rest)           (* allows no argument *)
      | None =>
          if has_arg p then
            match rest with
            | v :: rest' => found p v rest'
            | [] => (plain question, st rest)      (* requires an argument *)
            end
          else found p "" rest
      end
  end.

(** One call of [getopt_long(argc, argv, optstring, longopts, _)] in the
    default mode (POSIXLY_CORRECT not set, no leading '+' or '-' in the
    option string): non-options are passed over and end up behind the
    options, and "--" ends the scan.  The element [skip_nonoptions] stops
    at starts with '-' and has a second character. *)
Definition getopt_long (optstring : string) (longopts : list option_t)
    (s : state) : result * state :=
  match nextchar s with
  | String c cs => short_option optstring c cs (remaining s) (skipped s)
  | EmptyString =>
      let '(sk, rest) := skip_nonoptions (remaining s) in
      let skip := skipped s ++ sk in
      let stop l := {| remaining := []; nextchar := ""; skipped := skip ++ l |} in
      match rest with
      | [] => (plain (-1), stop [])
      | a :: rest' =>
          match a with
          | String _ (String c cs) =>
              if Ascii.eqb c "-" then
                match cs with
                | EmptyString => (plain (-1), stop rest')      (* "--" *)
                | _ => process_long_option longopts cs rest' skip
                end
              else short_option optstring c cs rest' skip
          | _ => (plain (-1), stop rest)
          end
      end
  end.

(** What is left to scan; every call that does not return -1 makes it
    smaller. *)
Definition weight (l : list string) : nat :=
  fold_right (fun a n => S (String.length a + n)) O l.

Definition measure (s : state) : nat :=
  String.length (nextchar s) + weight (remaining s).

End Getopt.

(** ** The parser of [main.cc] *)

Module Extract.

Import Libc.

Definition nl : string := String (ascii_of_nat 10) "".
Definition quote : string := String (ascii_of_nat 34) "".

(** [extract_config_t] is declared in [extract/filewalk.hpp].  The
    overrides are printed with [%d] (line 126) and tested against zero
    (line 124): they are [int]s, and 0 stands for "not forced". *)
Record override_t := {
  block_size : Z;
  extent_size : Z;
  mod_count : Z
}.

Record extract_config_t := {
  input_file : string;
  log_file : option string;
  output_file : string;
  overrides : override_t
}.

Definition set_input_file (v : string) (c : extract_config_t) :=
  {| input_file := v; log_file := log_file c;
     output_file := output_file c; overrides := overrides c |}.

Definition set_log_file (v : string) (c : extract_config_t) :=
  {| input_file := input_file c; log_file := Some v;
     output_file := output_file c; overrides := overrides c |}.

Definition set_output_file (v : string) (c : extract_config_t) :=
  {| input_file := input_file c; log_file := log_file c;
     output_file := v; overrides := overrides c |}.

Definition set_block_size (v : Z) (c : extract_config_t) :=
  {| input_file := input_file c; log_file := log_file c;
     output_file := output_file c;
     overrides := {| block_size := v;
                     extent_size := extent_size (overrides c);
                     mod_count := mod_count (overrides c) |} |}.

Definition set_extent_size (v : Z) (c : extract_config_t) :=
  {| input_file := input_file c; log_file := log_file c;
     output_file := output_file c;
     overrides := {| block_size := block_size (overrides c);
                     extent_size := v;
                     mod_count := mod_count (overrides c) |} |}.

Definition set_mod_count (v : Z) (c : extract_config_t) :=
  {| input_file := input_file c; log_file := log_file c;
     output_file := output_file c;
     overrides := {| block_size := block_size (overrides c);
                     extent_size := extent_size (overrides c);
                     mod_count := v |} |}.

(** How a call that does not return ends the process: [usage] prints the
    options and calls [exit(-1)]; [fail] reports a fatal error.
    [Unfinished] marks a scan cut short by its step bound, which
    [parse_cmd_args] never meets (lemma [parse_cmd_args_finishes]). *)
Inductive stop :=
| UsageExit (name : string)
| Failure (msg : string)
| Unfinished.

Inductive R (A : Type) :=
| Ok (a : A)
| Stop (s : stop).

Arguments Ok {A} a.
Arguments Stop {A} s.

Definition bind {A B} (m : R A) (k : A -> R B) : R B :=
  match m with
  | Ok a => k a
  | Stop s => Stop s
  end.

(** [usage(name)], lines 15-33. *)
Definition usage {A} (name : string) : R A := Stop (UsageExit name).

(** Modelled from the spec: [fail] is a macro of [errors.hpp], which is
    not among the sources; it prints its message and terminates the
    process with a non-zero status (spec, section 7). *)
Definition fail {A} (msg : string) : R A := Stop (Failure msg).

Definition force_block_size : Z := 256.
Definition force_extent_size : Z := 257.
Definition force_mod_count : Z := 258.

Definition optstring : string := "f:l:o:h".

Definition long_options : list Getopt.option_t :=
  [ Getopt.Build_option_t "force-block-size" true false force_block_size;
    Getopt.Build_option_t "force-extent-size" true false force_extent_size;
    Getopt.Build_option_t "force-mod-count" true false force_mod_count;
    Getopt.Build_option_t "file" true false (Getopt.code "f");
    Getopt.Build_option_t "log-file" true false (Getopt.code "l");
    Getopt.Build_option_t "output-file" true false (Getopt.code "o");
    Getopt.Build_option_t "help" false true 1 ].

Definition block_size_msg : string :=
  ("Block size must be a positive integer." ++ nl)%string.
Definition extent_size_msg : string :=
  ("Extent size must be a positive integer." ++ nl)%string.
Definition mod_count_msg : string :=
  ("The mod count must be a positive integer." ++ nl)%string.
Definition no_input_msg : string :=
  "You must explicitly specify a path with -f.".
Definition extra_argument_msg (a : string) : string :=
  ("Unexpected extra argument: " ++ quote ++ a ++ quote)%string.
Definition not_multiple_msg (extent block : Z) : string :=
  ("The forced extent size (" ++ format_d extent
   ++ ") is not a multiple of the forced block size (" ++ format_d block
   ++ ").")%string.

(** The test of lines 85, 92 and 99 on [endptr] and the stored value. *)
Definition bad_override (endptr : string) (stored : Z) : bool :=
  negb (endptr =? "")%string || (stored <=? 0).

Section Parser.

(** The text of [EXTRACT_CONFIG_DEFAULT_OUTPUT_FILE], a macro of
    [extract/filewalk.hpp]. *)
Variable EXTRACT_CONFIG_DEFAULT_OUTPUT_FILE : string.

(** Modelled from the spec: [extract_config_t::init] is defined in
    [extract/filewalk.hpp], which is not among the sources.  Spec,
    section 3: [log_file] defaults to unset, [output_file] to a fixed
    constant name, and no override is present; [input_file] starts
    empty. *)
Definition init : extract_config_t :=
  {| input_file := "";
     log_file := None;
     output_file := EXTRACT_CONFIG_DEFAULT_OUTPUT_FILE;
     overrides := {| block_size := 0; extent_size := 0; mod_count := 0 |} |}.

(** The [switch (c)] of lines 70-111. *)
Definition switch_option (argv0 : string) (c : Z) (optarg : string)
    (config : extract_config_t) : R extract_config_t :=
  if c =? 0 then Ok config
  else if c =? Getopt.code "f" then Ok (set_input_file optarg config)
  else if c =? Getopt.code "l" then Ok (set_log_file optarg config)
  else if c =? Getopt.code "o" then Ok (set_output_file optarg config)
  else if c =? force_block_size then
    let '(v, endptr) := strtol optarg in
    let config := set_block_size (int_of_long v) config in
    if bad_override endptr (block_size (overrides config))
    then fail block_size_msg else Ok config
  else if c =? force_extent_size then
    let '(v, endptr) := strtol optarg in
    let config := set_extent_size (int_of_long v) config in
    if bad_override endptr (extent_size (overrides config))
    then fail extent_size_msg else Ok config
  else if c =? force_mod_count then
    let '(v, endptr) := strtol optarg in
    let config := set_mod_count (int_of_long v) config in
    if bad_override endptr (mod_count (overrides config))
    then fail mod_count_msg else Ok config
  else if c =? Getopt.code "h" then usage argv0
  else usage argv0.

(** Lines 45-64: [do_help] is 0 unless [getopt_long] stored through the
    flag pointer of "help", and a set [do_help] replaces [c] by 'h'. *)
Definition chosen (r : Getopt.result) : Z :=
  let do_help := match Getopt.flag_store r with Some v => v | None => 0 end in
  if do_help =? 0 then Getopt.ret r else Getopt.code "h".

(** The [for (;;)] loop of lines 44-112; [fuel] bounds the number of
    iterations. *)
Fixpoint scan_options (fuel : nat) (argv0 : string) (st : Getopt.state)
    (config : extract_config_t) : R (Getopt.state * extract_config_t) :=
  match fuel with
  | O => Stop Unfinished
  | S fuel' =>
      let '(r, st') := Getopt.getopt_long optstring long_options st in
      let c := chosen r in
      if c =? -1 then Ok (st', config)
      else
        bind (switch_option argv0 c (Getopt.optarg r) config)
             (fun config' => scan_options fuel' argv0 st' config')
  end.

(** The checks of lines 114-128. *)
Definition sanity_check (operands : list string) (config : extract_config_t)
    : R extract_config_t :=
  match operands with
  | a :: _ => fail (extra_argument_msg a)
  | [] =>
      if (input_file config =? "")%string then fail no_input_msg
      else
        let o := overrides config in
        if negb (extent_size o =? 0) && negb (block_size o =? 0)
           && negb (Z.rem (extent_size o) (block_size o) =? 0)
        then fail (not_multiple_msg (extent_size o) (block_size o))
        else Ok config
  end.

(** [parse_cmd_args], lines 40-129.  The loop gets as many steps as there
    is to scan, and one more: enough for every argument list (lemma
    [parse_cmd_args_finishes]). *)
Definition parse_cmd_args (argv : list string) : R extract_config_t :=
  let argv0 := hd "" argv in
  let st := Getopt.init argv in
  bind (scan_options (S (Getopt.measure st)) argv0 st init)
       (fun scanned =>
          sanity_check (Getopt.skipped (fst scanned)) (snd scanned)).

End Parser.

(** ** The process: events, objects and the monad of the lifecycle code *)

(** What an execution does, in the order it does it. *)
Inductive event :=
| PoolRun                       (* thread_pool.run(&starter) *)
| NewRunner                     (* gnew<extract::runner>(argc, argv) *)
| NewFsm                        (* gnew<run_in_loggers_fsm_t>(pool, runner) *)
| Start                         (* fsm->start() *)
| ControllerStart               (* controller.start(this): activation request *)
| OnLoggerReady                 (* on_logger_ready() entered: loggers are ready *)
| RunnerRun                     (* runner->run() called *)
| Usage (name : string)         (* the text of usage(name) printed *)
| Failed (msg : string)         (* the message of fail printed *)
| Dumpfile (cfg : extract_config_t)   (* dumpfile(cfg) called *)
| RunnerReturned                (* runner->run() returned *)
| ControllerShutdown            (* controller.shutdown(this): deactivation request *)
| OnLoggerShutdown              (* on_logger_shutdown() entered: loggers are down *)
| ReadyCallback                 (* the pool delivers the deferred ready callback *)
| ShutdownCallback              (* the pool delivers the deferred shutdown callback *)
| PoolShutdown                  (* pool->shutdown(): pool-stop request *)
| DeleteRunner                  (* gdelete(runner) *)
| DeleteFsm                     (* the storage of the coordinator released *)
| PoolStopped                   (* thread_pool.run returned *)
| ProcessExit (status : Z).     (* exit(status), or main returned status *)

(** How an execution ends when it does not simply return. *)
Inductive ending :=
| Exited (status : Z)           (* the process exited with this status *)
| Fatal                         (* fail: terminated with a non-zero status *)
| Hung                          (* the pool waits with nothing to deliver *)
| MemoryFault                   (* a released object was used or released again *)
| OutOfSteps.                   (* a step bound was met; see [main_finishes] *)

Inductive outcome (A : Type) :=
| Done (a : A)
| Ended (e : ending).

Arguments Done {A} a.
Arguments Ended {A} e.

(** The heap objects of [main.cc] and what the collaborators remember:
    whether the log controller still owes the coordinator its ready or
    shutdown callback, and whether the pool was asked to stop. *)
Record world := {
  trace : list event;
  runner_live : bool;
  fsm_live : bool;
  ready_pending : bool;
  shutdown_pending : bool;
  pool_stopping : bool
}.

Definition boot : world :=
  {| trace := []; runner_live := false; fsm_live := false;
     ready_pending := false; shutdown_pending := false;
     pool_stopping := false |}.

Definition M (A : Type) : Type := world -> outcome A * world.

Definition mret {A} (a : A) : M A := fun w => (Done a, w).

Definition mbind {A B} (m : M A) (k : A -> M B) : M B :=
  fun w =>
    match m w with
    | (Done a, w') => k a w'
    | (Ended e, w') => (Ended e, w')
    end.

Notation "x <- m ;; k" := (mbind m (fun x => k))
  (at level 61, m at next level, right associativity).
Notation "m ;; k" := (mbind m (fun _ => k))
  (at level 61, right associativity).

Definition update (f : world -> world) : M unit := fun w => (Done tt, f w).

Definition halt {A} (e : ending) : M A := fun w => (Ended e, w).

Definition emit (e : event) : M unit :=
  update (fun w =>
    {| trace := trace w ++ [e]; runner_live := runner_live w;
       fsm_live := fsm_live w; ready_pending := ready_pending w;
       shutdown_pending := shutdown_pending w;
       pool_stopping := pool_stopping w |}).

Definition set_runner_live (b : bool) : M unit :=
  update (fun w =>
    {| trace := trace w; runner_live := b;
       fsm_live := fsm_live w; ready_pending := ready_pending w;
       shutdown_pending := shutdown_pending w;
       pool_stopping := pool_stopping w |}).

Definition set_fsm_live (b : bool) : M unit :=
  update (fun w =>
    {| trace := trace w; runner_live := runner_live w;
       fsm_live := b; ready_pending := ready_pending w;
       shutdown_pending := shutdown_pending w;
       pool_stopping := pool_stopping w |}).

Definition set_ready_pending (b : bool) : M unit :=
  update (fun w =>
    {| trace := trace w; runner_live := runner_live w;
       fsm_live := fsm_live w; ready_pending := b;
       shutdown_pending := shutdown_pending w;
       pool_stopping := pool_stopping w |}).

Definition set_shutdown_pending (b : bool) : M unit :=
  update (fun w =>
    {| trace := trace w; runner_live := runner_live w;
       fsm_live := fsm_live w; ready_pending := ready_pending w;
       shutdown_pending := b;
       pool_stopping := pool_stopping w |}).

Definition set_pool_stopping (b : bool) : M unit :=
  update (fun w =>
    {| trace := trace w; runner_live := runner_live w;
       fsm_live := fsm_live w; ready_pending := ready_pending w;
       shutdown_pending := shutdown_pending w;
       pool_stopping := b |}).

(** Every use of a member through [this] needs the coordinator alive. *)
Definition this : M unit :=
  fun w => if fsm_live w then (Done tt, w) else (Ended MemoryFault, w).

(** [exit(status)]. *)
Definition exit {A} (status : Z) : M A :=
  emit (ProcessExit (exit_status status)) ;; halt (Exited (exit_status status)).

(** What the surroundings of the coordinator do, which the code leaves
    open: whether the log controller completes a request before it returns
    ([true]) or calls back later, and whether the extraction returns. *)
Record environment := {
  start_inline : bool;
  shutdown_inline : bool;
  dumpfile_returns : extract_config_t -> bool
}.

(** The two extreme surroundings: everything completes at once, or every
    completion is called back later; the extraction returns in both. *)
Definition all_inline : environment :=
  {| start_inline := true; shutdown_inline := true;
     dumpfile_returns := fun _ => true |}.

Definition all_deferred : environment :=
  {| start_inline := false; shutdown_inline := false;
     dumpfile_returns := fun _ => true |}.

Section Process.

Variable EXTRACT_CONFIG_DEFAULT_OUTPUT_FILE : string.
Variable env : environment.

(** Modelled from the spec: [dumpfile] is the extraction engine of
    [extract/filewalk.cc], not among the sources; section 6: a blocking
    call with no return value that ends the process fatally on an
    unrecoverable error. *)
Definition dumpfile (cfg : extract_config_t) : M unit :=
  emit (Dumpfile cfg) ;;
  if dumpfile_returns env cfg then mret tt else halt Fatal.

(** [extractmain], lines 133-137, with the two ways [parse_cmd_args] has
    of not returning. *)
Definition extractmain (argv : list string) : M unit :=
  match parse_cmd_args EXTRACT_CONFIG_DEFAULT_OUTPUT_FILE argv with
  | Ok cfg => dumpfile cfg
  | Stop (UsageExit name) => emit (Usage name) ;; exit (-1)
  | Stop (Failure msg) => emit (Failed msg) ;; halt Fatal
  | Stop Unfinished => halt OutOfSteps
  end.

(** [struct blocking_runner_t], lines 145-147. *)
Record blocking_runner_t := { run : M unit }.

(** [struct runner], lines 189-196. *)
Definition runner (argv : list string) : blocking_runner_t :=
  {| run := extractmain argv |}.

(** Modelled from the spec: [log_controller_t] is declared in
    [logger.hpp], not among the sources; section 6: [start] and
    [shutdown] return true when the request is already complete, and
    otherwise keep the callback and invoke it later, once. *)
Definition controller_start : M bool :=
  emit ControllerStart ;;
  if start_inline env then mret true
  else set_ready_pending true ;; mret false.

Definition controller_shutdown : M bool :=
  emit ControllerShutdown ;;
  if shutdown_inline env then mret true
  else set_shutdown_pending true ;; mret false.

(** Modelled from the spec: [thread_pool_t] is not among the sources;
    section 6: [shutdown] asks the pool to stop. *)
Definition pool_shutdown : M unit :=
  emit PoolShutdown ;; set_pool_stopping true.

(** [gdelete(runner)]. *)
Definition gdelete_runner : M unit :=
  fun w =>
    if runner_live w then (emit DeleteRunner ;; set_runner_live false) w
    else (Ended MemoryFault, w).

(** [gdelete(this)]: the destructor of lines 158-160, then the storage. *)
Definition gdelete_this : M unit :=
  this ;; gdelete_runner ;; emit DeleteFsm ;; set_fsm_live false.

Section Fsm.

Variable the_runner : blocking_runner_t.

(** [on_logger_shutdown], lines 176-179. *)
Definition on_logger_shutdown : M unit :=
  emit OnLoggerShutdown ;;
  this ;; pool_shutdown ;;
  gdelete_this.

(** [on_logger_ready], lines 168-174. *)
Definition on_logger_ready : M unit :=
  emit OnLoggerReady ;;
  this ;; emit RunnerRun ;; run the_runner ;; emit RunnerReturned ;;
  inline <- (this ;; controller_shutdown) ;;
  if inline then on_logger_shutdown else mret tt.

(** [start], lines 162-166. *)
Definition start : M unit :=
  emit Start ;;
  inline <- (this ;; controller_start) ;;
  if inline then on_logger_ready else mret tt.

(** Modelled from the spec: the loop of [thread_pool_t::run] after the
    first message; it delivers the callbacks the log controller owes and
    returns once a stop was requested (section 6, [awaitStop]). *)
Fixpoint pool_loop (fuel : nat) : M unit :=
  match fuel with
  | O => halt OutOfSteps
  | S fuel' =>
      fun w =>
        if pool_stopping w then emit PoolStopped w
        else if ready_pending w then
          (set_ready_pending false ;; emit ReadyCallback ;;
           on_logger_ready ;; pool_loop fuel') w
        else if shutdown_pending w then
          (set_shutdown_pending false ;; emit ShutdownCallback ;;
           on_logger_shutdown ;; pool_loop fuel') w
        else (Ended Hung, w)
  end.

End Fsm.

(** [server_starter_t::on_cpu_switch], lines 217-221. *)
Definition on_cpu_switch (argv : list string) : M unit :=
  emit NewRunner ;; set_runner_live true ;;
  emit NewFsm ;; set_fsm_live true ;;
  start (runner argv).

(** [thread_pool.run(&starter)]: the first message, then the loop.  The
    log controller owes at most two callbacks, so three rounds of the loop
    are enough (lemma [main_finishes]). *)
Definition thread_pool_run (argv : list string) : M unit :=
  emit PoolRun ;;
  on_cpu_switch argv ;;
  pool_loop (runner argv) 3.

(** [main], lines 200-233; installing the SEGV handler is assumed to
    succeed and leaves no trace. *)
Definition main (argv : list string) : outcome Z * world :=
  (thread_pool_run argv ;;
   emit (ProcessExit 0) ;;
   mret 0) boot.

End Process.

End Extract.

(** ** Command lines, item by item

    A way to write argument lists whose reading by [getopt_long] is known:
    each item is one option with its argument, a help option, or an
    operand.  [render] gives the elements of argv, [run_items] what the
    [switch] of [parse_cmd_args] does for them in turn. *)

Module CommandLine.

Import Extract.

Inductive path_flag := FlagFile | FlagLog | FlagOutput.

Inductive override_flag := ForceBlockSize | ForceExtentSize | ForceModCount.

(** [-f v], [--file v] or [--file=v]. *)
Inductive spelling := Short | Long | LongEq.

Inductive item :=
| Path (f : path_flag) (sp : spelling) (v : string)
| Override (o : override_flag) (joined : bool) (v : string)
| Help (long : bool)
| Operand (s : string).

Definition short_name (f : path_flag) : string :=
  match f with
  | FlagFile => "-f"
  | FlagLog => "-l"
  | FlagOutput => "-o"
  end.

Definition long_name (f : path_flag) : string :=
  match f with
  | FlagFile => "--file"
  | FlagLog => "--log-file"
  | FlagOutput => "--output-file"
  end.

Definition override_name (o : override_flag) : string :=
  match o with
  | ForceBlockSize => "--force-block-size"
  | ForceExtentSize => "--force-extent-size"
  | ForceModCount => "--force-mod-count"
  end.

Definition render_item (i : item) : list string :=
  match i with
  | Path f Short v => [short_name f; v]
  | Path f Long v => [long_name f; v]
  | Path f LongEq v => [(long_name f ++ "=" ++ v)%string]
  | Override o false v => [override_name o; v]
  | Override o true v => [(override_name o ++ "=" ++ v)%string]
  | Help false => ["-h"]
  | Help true => ["--help"]
  | Operand s => [s]
  end.

Definition render (l : list item) : list string := flat_map render_item l.

Definition is_operand (i : item) : bool :=
  match i with Operand _ => true | _ => false end.

(** The scanner between two elements of argv. *)
Definition scanner (rest : list string) (sk : list string) : Getopt.state :=
  {| Getopt.remaining := rest; Getopt.nextchar := ""; Getopt.skipped := sk |}.

(** An operand must not look like an option. *)
Definition well_formed (i : item) : bool :=
  match i with
  | Operand s => Getopt.is_nonoption s
  | _ => true
  end.

Definition path_code (f : path_flag) : Z :=
  match f with
  | FlagFile => Getopt.code "f"
  | FlagLog => Getopt.code "l"
  | FlagOutput => Getopt.code "o"
  end.

Definition override_code (o : override_flag) : Z :=
  match o with
  | ForceBlockSize => force_block_size
  | ForceExtentSize => force_extent_size
  | ForceModCount => force_mod_count
  end.

Definition run_item (argv0 : string) (i : item) (config : extract_config_t)
    : R extract_config_t :=
  match i with
  | Path f _ v => switch_option argv0 (path_code f) v config
  | Override o _ v => switch_option argv0 (override_code o) v config
  | Help _ => switch_option argv0 (Getopt.code "h") "" config
  | Operand _ => Ok config
  end.

Fixpoint run_items (argv0 : string) (l : list item) (config : extract_config_t)
    : R extract_config_t :=
  match l with
  | i :: l' => bind (run_item argv0 i config) (run_items argv0 l')
  | [] => Ok config
  end.

Fixpoint operands (l : list item) : list string :=
  match l with
  | Operand s :: l' => s :: operands l'
  | _ :: l' => operands l'
  | [] => []
  end.

Definition path_flag_eqb (f g : path_flag) : bool :=
  match f, g with
  | FlagFile, FlagFile | FlagLog, FlagLog | FlagOutput, FlagOutput => true
  | _, _ => false
  end.

(** The argument of the last occurrence of a path flag. *)
Fixpoint last_path (f : path_flag) (l : list item) : option string :=
  match l with
  | Path g _ v :: l' =>
      match last_path f l' with
      | Some v' => Some v'
      | None => if path_flag_eqb f g then Some v else None
      end
  | _ :: l' => last_path f l'
  | [] => None
  end.

(** The options [getopt_long] reports on an argument list, each with its
    [optarg], in the order of the calls of the loop of [parse_cmd_args]
    and whatever the [switch] does with them. *)
Fixpoint reported (fuel : nat) (s : Getopt.state) : list (Z * string) :=
  match fuel with
  | O => []
  | S fuel' =>
      let '(r, s') := Getopt.getopt_long optstring long_options s in
      if chosen r =? -1 then []
      else (chosen r, Getopt.optarg r) :: reported fuel' s'
  end.

Definition options_of (argv : list string) : list (Z * string) :=
  reported (S (Getopt.measure (Getopt.init argv))) (Getopt.init argv).

(** The argument of the last report of the option [c]. *)
Fixpoint last_arg (c : Z) (l : list (Z * string)) : option string :=
  match l with
  | (c', a) :: l' =>
      match last_arg c l' with
      | Some a' => Some a'
      | None => if c' =? c then Some a else None
      end
  | [] => None
  end.

(** The field a path flag sets. *)
Definition path_field (f : path_flag) (c : extract_config_t) : option string :=
  match f with
  | FlagFile => Some (input_file c)
  | FlagLog => log_file c
  | FlagOutput => Some (output_file c)
  end.

(** The test [parse_cmd_args] applies to the argument of an override. *)
Definition override_accepted (v : string) : bool :=
  let '(n, endptr) := Libc.strtol v in
  negb (bad_override endptr (Libc.int_of_long n)).




(** Only paths, accepted overrides and operands: nothing that stops the
    scan. *)
Definition passes (i : item) : bool :=
  match i with
  | Path _ _ _ => true
  | Override _ _ v => override_accepted v
  | Help _ => false
  | Operand s => Getopt.is_nonoption s
  end.

(** The value an accepted override stores. *)
Definition override_value (v : string) : Z :=
  Libc.int_of_long (fst (Libc.strtol v)).

Definition set_override (o : override_flag) (n : Z) (c : extract_config_t) :=
  match o with
  | ForceBlockSize => set_block_size n c
  | ForceExtentSize => set_extent_size n c
  | ForceModCount => set_mod_count n c
  end.

Definition override_msg (o : override_flag) : string :=
  match o with
  | ForceBlockSize => block_size_msg
  | ForceExtentSize => extent_size_msg
  | ForceModCount => mod_count_msg
  end.

Definition set_path (f : path_flag) (v : string) (c : extract_config_t) :=
  match f with
  | FlagFile => set_input_file v c
  | FlagLog => set_log_file v c
  | FlagOutput => set_output_file v c
  end.

End CommandLine.

(** ** Reading the trace *)

Module Trace.

Import Extract.

Definition count (p : event -> bool) (t : list event) : nat :=
  List.length (filter p t).

Definition is_on_logger_ready (e : event) : bool :=
  match e with OnLoggerReady => true | _ => false end.
Definition is_start (e : event) : bool :=
  match e with Start => true | _ => false end.
Definition is_on_logger_shutdown (e : event) : bool :=
  match e with OnLoggerShutdown => true | _ => false end.
Definition is_pool_shutdown (e : event) : bool :=
  match e with PoolShutdown => true | _ => false end.
Definition is_delete_runner (e : event) : bool :=
  match e with DeleteRunner => true | _ => false end.
Definition is_delete_fsm (e : event) : bool :=
  match e with DeleteFsm => true | _ => false end.
Definition is_dumpfile (e : event) : bool :=
  match e with Dumpfile _ => true | _ => false end.
Definition is_usage (e : event) : bool :=
  match e with Usage _ => true | _ => false end.

Definition is_ready_callback (e : event) : bool :=
  match e with ReadyCallback => true | _ => false end.
Definition is_shutdown_callback (e : event) : bool :=
  match e with ShutdownCallback => true | _ => false end.
Definition is_runner_run (e : event) : bool :=
  match e with RunnerRun => true | _ => false end.
Definition is_runner_returned (e : event) : bool :=
  match e with RunnerReturned => true | _ => false end.
Definition is_controller_shutdown (e : event) : bool :=
  match e with ControllerShutdown => true | _ => false end.
Definition is_new_runner (e : event) : bool :=
  match e with NewRunner => true | _ => false end.
Definition is_new_fsm (e : event) : bool :=
  match e with NewFsm => true | _ => false end.
Definition is_process_exit (e : event) : bool :=
  match e with ProcessExit _ => true | _ => false end.
(** The exit of a process whose [main] returned 0. *)
Definition is_normal_exit (e : event) : bool :=
  match e with ProcessExit 0 => true | _ => false end.

(** A method of the coordinator entered, or a member used by it. *)
Definition on_coordinator (e : event) : bool :=
  match e with
  | Start | ControllerStart | OnLoggerReady | RunnerRun | RunnerReturned
  | ControllerShutdown | OnLoggerShutdown | PoolShutdown | DeleteRunner
  | DeleteFsm => true
  | _ => false
  end.

(** The place of an event in the lifecycle; [None] for the events the
    order says nothing about. *)
Definition rank (e : event) : option nat :=
  match e with
  | OnLoggerReady => Some 0%nat
  | RunnerRun => Some 1%nat
  | RunnerReturned => Some 2%nat
  | ControllerShutdown => Some 3%nat
  | OnLoggerShutdown => Some 4%nat
  | PoolShutdown => Some 5%nat
  | ProcessExit _ => Some 6%nat
  | _ => None
  end.

Fixpoint ranks (t : list event) : list nat :=
  match t with
  | e :: t' =>
      match rank e with
      | Some n => n :: ranks t'
      | None => ranks t'
      end
  | [] => []
  end.

Fixpoint increasing (l : list nat) : bool :=
  match l with
  | a :: ((b :: _) as l') => (a <? b)%nat && increasing l'
  | _ => true
  end.

(** What every execution does up to the readiness of the loggers, and
    what it does once the task has returned; a deferred completion shows
    as the pool delivering the callback. *)
Definition before_ready (env : environment) : list event :=
  [PoolRun; NewRunner; NewFsm; Start; ControllerStart]
  ++ (if start_inline env then [] else [ReadyCallback]).

Definition after_run (env : environment) : list event :=
  [ControllerShutdown]
  ++ (if shutdown_inline env then [] else [ShutdownCallback])
  ++ [OnLoggerShutdown; PoolShutdown; DeleteRunner; DeleteFsm; PoolStopped].

(** Every event of [t] that satisfies [q] comes after an event that
    satisfies [p]; [seen] tells whether one came already. *)
Fixpoint only_after_from (seen : bool) (p q : event -> bool) (t : list event)
    : bool :=
  match t with
  | e :: t' =>
      (if q e then seen else true) && only_after_from (seen || p e) p q t'
  | [] => true
  end.

Definition only_after (p q : event -> bool) (t : list event) : bool :=
  only_after_from false p q t.

End Trace.

(** ** More ways to read a configuration, a command line and a world *)

Module Reading.

Import Extract CommandLine.

(** The field an override sets. *)
Definition override_field (o : override_flag) (c : extract_config_t) : Z :=
  match o with
  | ForceBlockSize => block_size (overrides c)
  | ForceExtentSize => extent_size (overrides c)
  | ForceModCount => mod_count (overrides c)
  end.

(** An override is 0 ("not forced") or a positive [int]. *)
Definition int_or_unset (v : Z) : Prop := 0 <= v <= Libc.INT_MAX.

(** The short option characters of the option string "f:l:o:h", and the
    first characters of the long option names of lines 48-55. *)
Definition short_options : list ascii := ["f"; "l"; "o"; "h"]%char.

Definition is_short_option (c : ascii) : bool :=
  existsb (Ascii.eqb c) short_options.

(** An option of the program that takes an argument, as it is written. *)
Definition takes_argument (a : string) : bool :=
  existsb (String.eqb a)
    ["-f"; "-l"; "-o"; "--file"; "--log-file"; "--output-file";
     "--force-block-size"; "--force-extent-size"; "--force-mod-count"].

(** A world after some events more, one [emit] after the other. *)
Definition add_events (evs : list event) (w : world) : world :=
  fold_left (fun w e => snd (emit e w)) evs w.

(** What a task may leave in the trace. *)
Definition task_event (e : event) : bool :=
  match e with
  | Usage _ | Failed _ | Dumpfile _ | ProcessExit _ => true
  | _ => false
  end.

(** A runner whose [run] does nothing to the objects of the lifecycle: in
    every world it leaves the events [evs] and then returns or ends the
    process, as [result] says. *)
Definition behaves (r : blocking_runner_t) (evs : list event)
    (result : outcome unit) : Prop :=
  forall w, run r w = (result, add_events evs w).

(** A world in which the coordinator and its runner are alive and nothing
    is owed or requested yet. *)
Definition fresh (t : list event) : world :=
  {| trace := t; runner_live := true; fsm_live := true;
     ready_pending := false; shutdown_pending := false;
     pool_stopping := false |}.

(** The pool delivering a deferred callback. *)
Definition is_callback (e : event) : bool :=
  match e with
  | ReadyCallback | ShutdownCallback => true
  | _ => false
  end.

Definition without_callbacks (t : list event) : list event :=
  filter (fun e => negb (is_callback e)) t.

Definition is_controller_start (e : event) : bool :=
  match e with ControllerStart => true | _ => false end.

Definition is_release (e : event) : bool :=
  match e with DeleteRunner | DeleteFsm => true | _ => false end.

End Reading.

(** ** The lifecycle in full, decimal numbers, and the overrides of a
    command line *)

Module Precise.

Import Extract CommandLine Trace Reading.

(** The activation of the loggers is complete when [controller.start]
    returns true, or else when the pool delivers the ready callback; the
    deactivation likewise.  In the trace the call that returns true is the
    request itself. *)
Definition activation_complete (env : environment) (e : event) : bool :=
  if start_inline env then is_controller_start e else is_ready_callback e.

Definition deactivation_complete (env : environment) (e : event) : bool :=
  if shutdown_inline env then is_controller_shutdown e
  else is_shutdown_callback e.

Definition is_pool_stopped (e : event) : bool :=
  match e with PoolStopped => true | _ => false end.

(** The place of every event of the lifecycle, requests and deliveries
    included. *)
Definition place (e : event) : option nat :=
  match e with
  | ControllerStart => Some 0%nat
  | ReadyCallback => Some 1%nat
  | OnLoggerReady => Some 2%nat
  | RunnerRun => Some 3%nat
  | RunnerReturned => Some 4%nat
  | ControllerShutdown => Some 5%nat
  | ShutdownCallback => Some 6%nat
  | OnLoggerShutdown => Some 7%nat
  | PoolShutdown => Some 8%nat
  | PoolStopped => Some 9%nat
  | ProcessExit _ => Some 10%nat
  | _ => None
  end.

Fixpoint places (t : list event) : list nat :=
  match t with
  | e :: t' =>
      match place e with
      | Some n => n :: places t'
      | None => places t'
      end
  | [] => []
  end.

(** The places up to the call of [run], and from its return on. *)
Definition places_to_run (env : environment) : list nat :=
  ([0] ++ (if start_inline env then [] else [1]) ++ [2; 3])%nat.

Definition places_from_return (env : environment) : list nat :=
  ([4; 5] ++ (if shutdown_inline env then [] else [6]) ++ [7; 8; 9; 10])%nat.





(** The argument of the last occurrence of an override. *)
Fixpoint last_override (o : override_flag) (l : list item) : option string :=
  match l with
  | Override p _ v :: l' =>
      match last_override o l' with
      | Some v' => Some v'
      | None => if override_code o =? override_code p then Some v else None
      end
  | _ :: l' => last_override o l'
  | [] => None
  end.

(** The block size and the extent size, when both are given, agree. *)
Definition aligned (l : list item) : bool :=
  match last_override ForceBlockSize l, last_override ForceExtentSize l with
  | Some sb, Some se => override_value se mod override_value sb =? 0
  | _, _ => true
  end.

End Precise.

(** * Proofs *)

Import Extract CommandLine Trace.
Import Getopt (weight).

(** ** The scan of the options terminates *)

Section ScanTerminates.

Lemma measure_weight (s : Getopt.state) :
  Getopt.measure s
  = (String.length (Getopt.nextchar s) + weight (Getopt.remaining s))%nat.
Proof. reflexivity. Qed.

Lemma weight_cons a l : weight (a :: l) = S (String.length a + weight l).
Proof. reflexivity. Qed.

Lemma weight_app l1 l2 : weight (l1 ++ l2) = (weight l1 + weight l2)%nat.
Proof.
  induction l1 as [|a l1 IH]; [reflexivity|].
  cbn [app]. rewrite !weight_cons, IH. lia.
Qed.

Lemma skip_nonoptions_weight args sk rest :
  Getopt.skip_nonoptions args = (sk, rest) ->
  (weight rest <= weight args)%nat.
Proof.
  revert sk rest. induction args as [|a args IH]; intros sk rest H.
  - inversion H. apply Nat.le_refl.
  - cbn [Getopt.skip_nonoptions] in H.
    destruct (Getopt.is_nonoption a).
    + destruct (Getopt.skip_nonoptions args) as [sk' rest'] eqn:E.
      inversion H; subst. rewrite weight_cons.
      specialize (IH _ _ eq_refl). lia.
    + inversion H. apply Nat.le_refl.
Qed.

Lemma short_option_measure os c cs rest sk r s' :
  Getopt.short_option os c cs rest sk = (r, s') ->
  (Getopt.measure s' <= String.length cs + weight rest)%nat.
Proof.
  unfold Getopt.short_option. intros H.
  destruct (Ascii.eqb c ":").
  - inversion H; subst. rewrite measure_weight. apply Nat.le_refl.
  - destruct (Getopt.short_lookup os c) as [[|]|].
    + destruct cs as [|c' cs'].
      * destruct rest as [|v rest'];
          inversion H; subst; rewrite measure_weight; cbn [Getopt.nextchar Getopt.remaining];
          rewrite ?weight_cons; cbn [String.length]; lia.
      * inversion H; subst. rewrite measure_weight. cbn [Getopt.nextchar Getopt.remaining String.length]. lia.
    + inversion H; subst. rewrite measure_weight. apply Nat.le_refl.
    + inversion H; subst. rewrite measure_weight. apply Nat.le_refl.
Qed.

Lemma process_long_option_measure lo body rest sk r s' :
  Getopt.process_long_option lo body rest sk = (r, s') ->
  (Getopt.measure s' <= weight rest)%nat.
Proof.
  unfold Getopt.process_long_option. intros H.
  destruct (Getopt.split_eq body) as [nm value].
  assert (T : forall rest', (weight rest' <= weight rest)%nat ->
            (Getopt.measure {| Getopt.remaining := rest'; Getopt.nextchar := "";
                               Getopt.skipped := sk |} <= weight rest)%nat).
  { intros rest' Hle. rewrite measure_weight. cbn. exact Hle. }
  destruct (Getopt.find_long lo nm) as [[p|]|].
  - destruct value as [v|].
    + destruct (Getopt.has_arg p).
      * destruct (Getopt.flag p); inversion H; subst; apply T, Nat.le_refl.
      * inversion H; subst; apply T, Nat.le_refl.
    + destruct (Getopt.has_arg p).
      * destruct rest as [|v rest'].
        -- inversion H; subst; apply T, Nat.le_refl.
        -- destruct (Getopt.flag p); inversion H; subst; apply T;
             rewrite weight_cons; lia.
      * destruct (Getopt.flag p); inversion H; subst; apply T, Nat.le_refl.
  - inversion H; subst; apply T, Nat.le_refl.
  - inversion H; subst; apply T, Nat.le_refl.
Qed.

(** Every call of [getopt_long] that returns something else than -1 has
    consumed part of the argument list. *)
Lemma getopt_long_decreases os lo s r s' :
  Getopt.getopt_long os lo s = (r, s') ->
  Getopt.ret r <> -1 ->
  (Getopt.measure s' < Getopt.measure s)%nat.
Proof.
  unfold Getopt.getopt_long. intros H Hr.
  rewrite (measure_weight s).
  destruct (Getopt.nextchar s) as [|c cs].
  - destruct (Getopt.skip_nonoptions (Getopt.remaining s)) as [sk rest] eqn:E.
    apply skip_nonoptions_weight in E.
    destruct rest as [|a rest'].
    + inversion H; subst. now elim Hr.
    + rewrite weight_cons in E.
      destruct a as [|c1 [|c2 cs]]; try (inversion H; subst; now elim Hr).
      destruct (Ascii.eqb c2 "-").
      * destruct cs as [|c3 cs]; [inversion H; subst; now elim Hr|].
        apply process_long_option_measure in H. cbn [String.length] in *. lia.
      * apply short_option_measure in H. cbn [String.length] in *. lia.
  - apply short_option_measure in H. cbn [String.length]. lia.
Qed.

End ScanTerminates.

(** ** The loop of [parse_cmd_args] and its step bound *)

Section ScanFuel.

Variable argv0 : string.

Lemma switch_option_help optarg config :
  switch_option argv0 (Getopt.code "h") optarg config = Stop (UsageExit argv0).
Proof. reflexivity. Qed.

Lemma switch_option_finishes c optarg config :
  switch_option argv0 c optarg config <> Stop Unfinished.
Proof.
  unfold switch_option, usage, fail.
  repeat match goal with
         | |- context [if ?b then _ else _] => destruct b
         | |- context [let '(_, _) := ?p in _] => destruct p
         end; discriminate.
Qed.

Lemma scan_options_step fuel s config :
  scan_options (S fuel) argv0 s config
  = let '(r, s') := Getopt.getopt_long optstring long_options s in
    if chosen r =? -1 then Ok (s', config)
    else bind (switch_option argv0 (chosen r) (Getopt.optarg r) config)
              (fun config' => scan_options fuel argv0 s' config').
Proof. reflexivity. Qed.

(** When the loop goes round again, the scanner has moved on. *)
Lemma scan_continues s r s' config config' :
  Getopt.getopt_long optstring long_options s = (r, s') ->
  (chosen r =? -1) = false ->
  switch_option argv0 (chosen r) (Getopt.optarg r) config = Ok config' ->
  (Getopt.measure s' < Getopt.measure s)%nat.
Proof.
  intros G C W. apply (getopt_long_decreases _ _ _ _ _ G).
  unfold chosen in *.
  destruct (_ =? 0).
  - apply Z.eqb_neq in C. exact C.
  - rewrite switch_option_help in W. discriminate.
Qed.

Lemma scan_options_fuel n : forall m s config,
  (Getopt.measure s < n)%nat -> (Getopt.measure s < m)%nat ->
  scan_options n argv0 s config = scan_options m argv0 s config.
Proof.
  induction n as [|n IH]; intros m s config Hn Hm; [lia|].
  destruct m as [|m]; [lia|].
  rewrite !scan_options_step.
  destruct (Getopt.getopt_long optstring long_options s) as [r s'] eqn:G.
  destruct (chosen r =? -1) eqn:C; [reflexivity|].
  destruct (switch_option argv0 (chosen r) (Getopt.optarg r) config)
    as [config'|] eqn:W; [|reflexivity].
  cbn [bind]. pose proof (scan_continues _ _ _ _ _ G C W).
  apply IH; lia.
Qed.

Lemma scan_options_finishes n : forall s config,
  (Getopt.measure s < n)%nat ->
  scan_options n argv0 s config <> Stop Unfinished.
Proof.
  induction n as [|n IH]; intros s config Hn; [lia|].
  rewrite scan_options_step.
  destruct (Getopt.getopt_long optstring long_options s) as [r s'] eqn:G.
  destruct (chosen r =? -1) eqn:C; [discriminate|].
  destruct (switch_option argv0 (chosen r) (Getopt.optarg r) config)
    as [config'|st] eqn:W; cbn [bind].
  - pose proof (scan_continues _ _ _ _ _ G C W). apply IH; lia.
  - intros E. apply (switch_option_finishes (chosen r) (Getopt.optarg r) config).
    congruence.
Qed.

End ScanFuel.

Lemma sanity_check_finishes ops config :
  sanity_check ops config <> Stop Unfinished.
Proof.
  unfold sanity_check, fail. destruct ops; [|discriminate].
  repeat match goal with
         | |- context [if ?b then _ else _] => destruct b
         end; discriminate.
Qed.

(** [parse_cmd_args] never stops for lack of steps: it returns a
    configuration, prints the usage, or fails. *)
Lemma parse_cmd_args_finishes dflt argv :
  parse_cmd_args dflt argv <> Stop Unfinished.
Proof.
  unfold parse_cmd_args.
  pose proof (scan_options_finishes (hd "" argv) (S (Getopt.measure (Getopt.init argv)))
                (Getopt.init argv) (init dflt) (Nat.lt_succ_diag_r _)) as F.
  destruct (scan_options _ _ _ _) as [[s c]|st]; cbn [bind fst snd].
  - apply sanity_check_finishes.
  - intros E. apply F. congruence.
Qed.

(** ** Reading a command line item by item *)

Section Items.

Variable argv0 : string.

(** What [getopt_long] reports for an option item, seen through the
    [switch] of the parser. *)
Lemma getopt_item i rest sk :
  is_operand i = false ->
  exists r,
    Getopt.getopt_long optstring long_options (scanner (render_item i ++ rest) sk)
    = (r, scanner rest sk)
    /\ (chosen r =? -1) = false
    /\ forall config,
         switch_option argv0 (chosen r) (Getopt.optarg r) config
         = run_item argv0 i config.
Proof.
  intros Hop. unfold scanner.
  destruct i as [f sp v|o j v|long|s]; [| | |discriminate].
  - destruct f, sp; eexists; (split; [|split]);
      try (cbn; rewrite app_nil_r; reflexivity); reflexivity.
  - destruct o, j; eexists; (split; [|split]);
      try (cbn; rewrite app_nil_r; reflexivity); reflexivity.
  - destruct long; eexists; (split; [|split]);
      try (cbn; rewrite app_nil_r; reflexivity); reflexivity.
Qed.

Lemma scan_item fuel i rest sk config :
  is_operand i = false ->
  scan_options (S fuel) argv0 (scanner (render_item i ++ rest) sk) config
  = bind (run_item argv0 i config)
         (fun config' => scan_options fuel argv0 (scanner rest sk) config').
Proof.
  intros Hop. destruct (getopt_item i rest sk Hop) as (r & G & C & W).
  rewrite scan_options_step, G, C, W. reflexivity.
Qed.

(** An operand is passed over and kept for the end. *)
Lemma getopt_operand s rest sk :
  Getopt.is_nonoption s = true ->
  Getopt.getopt_long optstring long_options (scanner (s :: rest) sk)
  = Getopt.getopt_long optstring long_options (scanner rest (sk ++ [s])).
Proof.
  intros Hs. unfold Getopt.getopt_long, scanner.
  cbn [Getopt.nextchar Getopt.remaining Getopt.skipped Getopt.skip_nonoptions].
  rewrite Hs.
  destruct (Getopt.skip_nonoptions rest) as [sk' rest'].
  assert (E : (sk ++ [s]) ++ sk' = sk ++ s :: sk')
    by (rewrite <- app_assoc; reflexivity).
  rewrite E. reflexivity.
Qed.

Lemma scan_operand fuel s rest sk config :
  Getopt.is_nonoption s = true ->
  scan_options fuel argv0 (scanner (s :: rest) sk) config
  = scan_options fuel argv0 (scanner rest (sk ++ [s])) config.
Proof.
  intros Hs. destruct fuel as [|fuel]; [reflexivity|].
  rewrite !scan_options_step, (getopt_operand s rest sk Hs). reflexivity.
Qed.

Lemma measure_scanner rest sk : Getopt.measure (scanner rest sk) = weight rest.
Proof. reflexivity. Qed.

Lemma render_item_weight i : (1 <= weight (render_item i))%nat.
Proof.
  destruct i as [f [] v|o [] v|[]|s]; cbn [render_item]; rewrite weight_cons; lia.
Qed.

Lemma scan_items items : forall fuel rest sk config,
  forallb well_formed items = true ->
  (weight (render items ++ rest) < fuel)%nat ->
  scan_options fuel argv0 (scanner (render items ++ rest) sk) config
  = bind (run_items argv0 items config)
         (fun config' =>
            scan_options fuel argv0 (scanner rest (sk ++ operands items)) config').
Proof.
  induction items as [|i items IH]; intros fuel rest sk config Hwf Hfuel.
  - cbn. rewrite app_nil_r. reflexivity.
  - cbn [forallb] in Hwf. apply andb_true_iff in Hwf as [Hi Hwf].
    unfold render in *. cbn [flat_map] in *. rewrite <- app_assoc in *.
    rewrite weight_app in Hfuel. pose proof (render_item_weight i) as Hw.
    destruct (is_operand i) eqn:Hop.
    + destruct i as [| | |s]; try discriminate.
      cbn [render_item app] in *. cbn [well_formed] in Hi.
      rewrite (scan_operand fuel s _ sk config Hi).
      rewrite IH by (assumption || lia).
      cbn [run_items run_item bind operands]. rewrite <- app_assoc. reflexivity.
    + destruct fuel as [|fuel]; [lia|].
      rewrite (scan_item fuel i _ sk config Hop).
      cbn [run_items].
      destruct (run_item argv0 i config) as [config'|st]; cbn [bind]; [|reflexivity].
      rewrite IH by (assumption || lia).
      assert (Ho : operands (i :: items) = operands items)
        by (destruct i; [reflexivity ..|discriminate]).
      rewrite Ho.
      destruct (run_items argv0 items config') as [config''|st]; cbn [bind];
        [|reflexivity].
      apply scan_options_fuel; rewrite measure_scanner;
        rewrite weight_app in Hfuel; lia.
Qed.

End Items.

(** The parser on a command line written as items: the options act in
    turn, then the checks of lines 114-128 see the operands. *)
Lemma parse_items dflt argv0 items :
  forallb well_formed items = true ->
  parse_cmd_args dflt (argv0 :: render items)
  = bind (run_items argv0 items (init dflt))
         (fun config => sanity_check (operands items) config).
Proof.
  intros Hwf. unfold parse_cmd_args, Getopt.init. cbn [hd tl].
  fold (scanner (render items) []).
  rewrite (measure_scanner (render items) []).
  pose proof (scan_items argv0 items (S (weight (render items))) [] [] (init dflt) Hwf)
    as H.
  rewrite app_nil_r in H. rewrite H by lia.
  destruct (run_items argv0 items (init dflt)) as [config|st]; cbn [bind];
    [|reflexivity].
  rewrite scan_options_step. cbn. rewrite !app_nil_r. reflexivity.
Qed.

(** ** [strtol] reads back what [%d] prints *)

Section Decimal.

Import Libc.

Lemma digits_of_uint_acc d : forall acc,
  digits (NilEmpty.string_of_uint d) (Z.pos acc)
  = (Z.pos (Pos.of_uint_acc d acc), "").
Proof.
  induction d; intros acc; cbn [NilEmpty.string_of_uint Pos.of_uint_acc digits];
    [reflexivity|..];
    (change (isdigit _) with true; cbv iota;
     match goal with
     | |- digits _ ?a = _ =>
         match goal with
         | |- context [Pos.of_uint_acc _ ?b] =>
             replace a with (Z.pos b)
               by (unfold digit_value;
                   match goal with
                   | |- context [Z.of_nat ?n] =>
                       let k := eval vm_compute in (Z.of_nat n) in
                       change (Z.of_nat n) with k
                   end; lia)
         end
     end; apply IHd).
Qed.

Lemma digits_of_uint d :
  digits (NilEmpty.string_of_uint d) 0 = (Z.of_N (Pos.of_uint d), "").
Proof.
  induction d; cbn [NilEmpty.string_of_uint Pos.of_uint digits];
    [reflexivity|exact IHd|..];
    (change (isdigit _) with true; cbv iota;
     match goal with
     | |- digits _ ?a = _ =>
         match goal with
         | |- context [Pos.of_uint_acc _ ?b] =>
             replace a with (Z.pos b)
               by (unfold digit_value;
                   match goal with
                   | |- context [Z.of_nat ?n] =>
                       let k := eval vm_compute in (Z.of_nat n) in
                       change (Z.of_nat n) with k
                   end; lia)
         end
     end; apply digits_of_uint_acc).
Qed.

Lemma format_d_pos p : format_d (Z.pos p) = NilEmpty.string_of_uint (Pos.to_uint p).
Proof.
  unfold format_d. cbn [Z.to_int NilZero.string_of_int].
  unfold NilZero.string_of_uint.
  pose proof (DecimalPos.Unsigned.to_uint_nonnil p).
  destruct (Pos.to_uint p); [contradiction|reflexivity ..].
Qed.

Lemma strtol_string_of_uint d v :
  d <> Decimal.Nil ->
  digits (NilEmpty.string_of_uint d) 0 = (v, "") ->
  strtol (NilEmpty.string_of_uint d) = (clamp_long v, "").
Proof.
  intros Hd Hv. unfold strtol.
  destruct d; [contradiction|..]; cbn [NilEmpty.string_of_uint] in *;
    cbn [skip_space];
    change (isspace _) with false; cbv iota;
    change (Ascii.eqb _ "-") with false; change (Ascii.eqb _ "+") with false;
    cbv iota; change (isdigit _) with true; cbv iota;
    rewrite Hv; reflexivity.
Qed.

(** For a positive [long], [strtol] applied to its decimal form gives the
    number back and reads the whole string. *)
Lemma strtol_format_d v :
  0 < v <= LONG_MAX -> strtol (format_d v) = (v, "").
Proof.
  intros [Hpos Hmax]. destruct v as [|p|p]; try lia.
  rewrite format_d_pos.
  rewrite (strtol_string_of_uint _ (Z.pos p)).
  - unfold clamp_long.
    destruct (Z.pos p >? LONG_MAX) eqn:E1; [apply Z.gtb_lt in E1; lia|].
    destruct (Z.pos p <? LONG_MIN) eqn:E2; [apply Z.ltb_lt in E2|reflexivity].
    unfold LONG_MIN in E2. lia.
  - apply DecimalPos.Unsigned.to_uint_nonnil.
  - rewrite digits_of_uint, DecimalPos.Unsigned.of_to. reflexivity.
Qed.

Lemma int_of_long_small v :
  - 2 ^ 31 <= v <= INT_MAX -> int_of_long v = v.
Proof.
  unfold int_of_long, INT_MAX. intros H.
  rewrite Z.mod_small by lia. lia.
Qed.

(** An override written as the decimal form of a positive [int] is
    accepted with that value. *)
Lemma override_format_d v :
  0 < v <= INT_MAX ->
  strtol (format_d v) = (v, "") /\ int_of_long v = v
  /\ override_accepted (format_d v) = true.
Proof.
  intros H.
  assert (HL : 0 < v <= LONG_MAX) by (unfold INT_MAX, LONG_MAX in *; lia).
  assert (HI : int_of_long v = v) by (apply int_of_long_small; unfold INT_MAX in *; lia).
  split; [apply strtol_format_d, HL|split; [exact HI|]].
  unfold override_accepted. rewrite (strtol_format_d v HL), HI.
  unfold bad_override. cbn [String.eqb negb orb].
  destruct (v <=? 0) eqn:E; [apply Z.leb_le in E; lia|reflexivity].
Qed.

End Decimal.

(** ** The executions of [main] *)

Section Executions.

Variable dflt : string.
Variable env : environment.
Variable argv : list string.

Ltac run_main H :=
  unfold main, thread_pool_run, on_cpu_switch, start, on_logger_ready, runner,
    extractmain;
  cbn [run]; rewrite H; clear H;
  destruct env as [[|] [|] returns];
  cbn [start_inline shutdown_inline dumpfile_returns] in *; cbv.

Lemma main_returns cfg :
  parse_cmd_args dflt argv = Ok cfg ->
  dumpfile_returns env cfg = true ->
  main dflt env argv
  = (Done 0,
     {| trace := before_ready env
                 ++ [OnLoggerReady; RunnerRun; Dumpfile cfg; RunnerReturned]
                 ++ after_run env ++ [ProcessExit 0];
        runner_live := false; fsm_live := false;
        ready_pending := false; shutdown_pending := false;
        pool_stopping := true |}).
Proof.
  intros H D. run_main H; rewrite D; reflexivity.
Qed.

Lemma main_engine_fails cfg :
  parse_cmd_args dflt argv = Ok cfg ->
  dumpfile_returns env cfg = false ->
  main dflt env argv
  = (Ended Fatal,
     {| trace := before_ready env ++ [OnLoggerReady; RunnerRun; Dumpfile cfg];
        runner_live := true; fsm_live := true;
        ready_pending := false; shutdown_pending := false;
        pool_stopping := false |}).
Proof.
  intros H D. run_main H; rewrite D; reflexivity.
Qed.

Lemma main_usage name :
  parse_cmd_args dflt argv = Stop (UsageExit name) ->
  main dflt env argv
  = (Ended (Exited 255),
     {| trace := before_ready env
                 ++ [OnLoggerReady; RunnerRun; Usage name; ProcessExit 255];
        runner_live := true; fsm_live := true;
        ready_pending := false; shutdown_pending := false;
        pool_stopping := false |}).
Proof.
  intros H. run_main H; reflexivity.
Qed.

Lemma main_failure msg :
  parse_cmd_args dflt argv = Stop (Failure msg) ->
  main dflt env argv
  = (Ended Fatal,
     {| trace := before_ready env ++ [OnLoggerReady; RunnerRun; Failed msg];
        runner_live := true; fsm_live := true;
        ready_pending := false; shutdown_pending := false;
        pool_stopping := false |}).
Proof.
  intros H. run_main H; reflexivity.
Qed.

End Executions.

(** Every execution of [main] is one of four. *)
Lemma main_cases dflt env argv :
  let r := main dflt env argv in
  (exists cfg, parse_cmd_args dflt argv = Ok cfg
     /\ dumpfile_returns env cfg = true
     /\ fst r = Done 0
     /\ trace (snd r)
        = before_ready env
          ++ [OnLoggerReady; RunnerRun; Dumpfile cfg; RunnerReturned]
          ++ after_run env ++ [ProcessExit 0])
  \/ (exists cfg, parse_cmd_args dflt argv = Ok cfg
     /\ dumpfile_returns env cfg = false
     /\ fst r = Ended Fatal
     /\ trace (snd r)
        = before_ready env ++ [OnLoggerReady; RunnerRun; Dumpfile cfg])
  \/ (exists name, parse_cmd_args dflt argv = Stop (UsageExit name)
     /\ fst r = Ended (Exited 255)
     /\ trace (snd r)
        = before_ready env
          ++ [OnLoggerReady; RunnerRun; Usage name; ProcessExit 255])
  \/ (exists msg, parse_cmd_args dflt argv = Stop (Failure msg)
     /\ fst r = Ended Fatal
     /\ trace (snd r)
        = before_ready env ++ [OnLoggerReady; RunnerRun; Failed msg]).
Proof.
  cbv zeta.
  destruct (parse_cmd_args dflt argv) as [cfg|[name|msg|]] eqn:P.
  - destruct (dumpfile_returns env cfg) eqn:D.
    + left. exists cfg. rewrite (main_returns dflt env argv cfg P D). auto.
    + right; left. exists cfg.
      rewrite (main_engine_fails dflt env argv cfg P D). auto.
  - right; right; left. exists name. rewrite (main_usage dflt env argv name P). auto.
  - right; right; right. exists msg.
    rewrite (main_failure dflt env argv msg P). auto.
  - elim (parse_cmd_args_finishes dflt argv P).
Qed.

(** [main] never meets a step bound, never leaves the pool waiting and
    never touches a released object. *)
Lemma main_finishes dflt env argv :
  fst (main dflt env argv) = Done 0
  \/ fst (main dflt env argv) = Ended (Exited 255)
  \/ fst (main dflt env argv) = Ended Fatal.
Proof.
  destruct (main_cases dflt env argv) as [(c & _ & _ & H & _)|[(c & _ & _ & H & _)|
    [(n & _ & H & _)|(m & _ & H & _)]]]; auto.
Qed.

(** ** Items that pass *)

Lemma passes_well_formed items :
  forallb passes items = true -> forallb well_formed items = true.
Proof.
  induction items as [|i items IH]; [reflexivity|].
  cbn [forallb]. rewrite !andb_true_iff. intros [Hi H]. split; [|auto].
  destruct i; try reflexivity. exact Hi.
Qed.

Lemma run_items_app argv0 l1 l2 config :
  run_items argv0 (l1 ++ l2) config
  = bind (run_items argv0 l1 config) (run_items argv0 l2).
Proof.
  revert config. induction l1 as [|i l1 IH]; intros config; [reflexivity|].
  cbn [app run_items]. destruct (run_item argv0 i config); cbn [bind]; auto.
Qed.

Lemma run_path argv0 f sp v config :
  run_item argv0 (Path f sp v) config = Ok (set_path f v config).
Proof. destruct f; reflexivity. Qed.

Lemma run_override argv0 o j v config :
  run_item argv0 (Override o j v) config
  = if override_accepted v then Ok (set_override o (override_value v) config)
    else Stop (Failure (override_msg o)).
Proof.
  unfold override_accepted, override_value.
  destruct o; cbn [run_item override_code]; unfold switch_option;
    cbn -[Libc.strtol bad_override Libc.int_of_long];
    destruct (Libc.strtol v) as [n endptr]; cbn [fst];
    destruct (bad_override endptr (Libc.int_of_long n)); reflexivity.
Qed.

Lemma run_help argv0 long config :
  run_item argv0 (Help long) config = Stop (UsageExit argv0).
Proof. reflexivity. Qed.

Lemma run_items_passes argv0 items : forall config,
  forallb passes items = true ->
  exists config', run_items argv0 items config = Ok config'.
Proof.
  induction items as [|i items IH]; intros config H.
  - exists config. reflexivity.
  - cbn [forallb] in H. apply andb_true_iff in H as [Hi H].
    cbn [run_items].
    destruct i as [f sp v|o j v|long|s]; cbn [passes] in Hi.
    + rewrite run_path. cbn [bind]. apply IH, H.
    + rewrite run_override, Hi. cbn [bind]. apply IH, H.
    + discriminate.
    + cbn [run_item bind]. apply IH, H.
Qed.

(** The parser on a command line that starts with items that pass and
    goes on with one more option item: that item decides. *)
Lemma parse_stops_at dflt argv0 items i post s :
  forallb passes items = true ->
  is_operand i = false ->
  (forall config, run_item argv0 i config = Stop s) ->
  parse_cmd_args dflt (argv0 :: render items ++ render_item i ++ post) = Stop s.
Proof.
  intros Hp Hi Hs. unfold parse_cmd_args, Getopt.init. cbn [hd tl].
  fold (scanner (render items ++ render_item i ++ post) []).
  rewrite measure_scanner.
  rewrite scan_items by (auto using passes_well_formed).
  destruct (run_items_passes argv0 items (init dflt) Hp) as [config' R].
  rewrite R. cbn [bind].
  rewrite (scan_item argv0 _ i post _ config' Hi), Hs. reflexivity.
Qed.

(** ** The lifecycle *)

Ltac executions dflt env argv :=
  let X := fresh "X" in
  pose proof (main_cases dflt env argv) as X; cbv zeta in X |- *;
  destruct X as [(?cfg & ?P & ?D & ?O & ?T)|[(?cfg & ?P & ?D & ?O & ?T)|
    [(?name & ?P & ?O & ?T)|(?msg & ?P & ?O & ?T)]]];
  rewrite ?O, ?T; unfold before_ready, after_run;
  destruct (start_inline env), (shutdown_inline env).

(** C1: whatever the log controller does with the activation request --
    complete it before [controller.start] returns, or call the ready
    callback later -- an execution calls [start] once and enters
    [on_logger_ready] exactly once; the pool delivers a ready callback
    exactly when the activation was deferred. *)
Theorem start_reaches_on_logger_ready_once dflt env argv :
  let t := trace (snd (main dflt env argv)) in
  count is_start t = 1%nat
  /\ count is_on_logger_ready t = 1%nat
  /\ count is_ready_callback t = (if start_inline env then 0 else 1)%nat.
Proof.
  executions dflt env argv; repeat split; reflexivity.
Qed.

(** C2, as stated, fails where the task ends the process: asked for help,
    [usage] calls [exit(-1)] inside [run], and the process exits though
    the pool was never asked to stop. *)
Lemma exit_without_pool_stop :
  let r := main "dump.out" all_inline ["extract"; "-h"] in
  fst r = Ended (Exited 255)
  /\ existsb is_process_exit (trace (snd r)) = true
  /\ existsb is_pool_shutdown (trace (snd r)) = false
  /\ only_after is_pool_shutdown is_process_exit (trace (snd r)) = false.
Proof. repeat split; reflexivity. Qed.

(** C3: in an execution that reaches [on_logger_shutdown], whether the
    deactivation completed at once or was called back by the pool, it is
    entered once, and then the pool is asked to stop once, the runner is
    released once and the coordinator once, in this order; no method or
    member of the coordinator is used after the release; at the end both
    objects are released and no released object was touched ([main]
    returns 0). *)
Theorem shutdown_releases_once dflt env argv :
  let r := main dflt env argv in
  let t := trace (snd r) in
  existsb is_on_logger_shutdown t = true ->
  count is_on_logger_shutdown t = 1%nat
  /\ count is_shutdown_callback t = (if shutdown_inline env then 0 else 1)%nat
  /\ count is_pool_shutdown t = 1%nat
  /\ count is_delete_runner t = 1%nat
  /\ count is_delete_fsm t = 1%nat
  /\ (exists pre post,
        t = pre ++ [OnLoggerShutdown; PoolShutdown; DeleteRunner; DeleteFsm] ++ post
        /\ existsb on_coordinator post = false)
  /\ runner_live (snd r) = false
  /\ fsm_live (snd r) = false
  /\ fst r = Done 0.
Proof.
  cbv zeta.
  destruct (parse_cmd_args dflt argv) as [cfg|[name|msg|]] eqn:P.
  - destruct (dumpfile_returns env cfg) eqn:D.
    + rewrite (main_returns dflt env argv cfg P D). cbn [fst snd trace runner_live fsm_live].
      intros _. unfold before_ready, after_run.
      repeat match goal with |- _ /\ _ => split end;
        try (destruct (start_inline env), (shutdown_inline env); reflexivity).
      exists ([PoolRun; NewRunner; NewFsm; Start; ControllerStart]
              ++ (if start_inline env then [] else [ReadyCallback])
              ++ [OnLoggerReady; RunnerRun; Dumpfile cfg; RunnerReturned;
                  ControllerShutdown]
              ++ (if shutdown_inline env then [] else [ShutdownCallback])),
             [PoolStopped; ProcessExit 0].
      destruct (start_inline env), (shutdown_inline env); split; reflexivity.
    + rewrite (main_engine_fails dflt env argv cfg P D). cbn [snd trace].
      unfold before_ready. destruct (start_inline env); discriminate.
  - rewrite (main_usage dflt env argv name P). cbn [snd trace].
    unfold before_ready. destruct (start_inline env); discriminate.
  - rewrite (main_failure dflt env argv msg P). cbn [snd trace].
    unfold before_ready. destruct (start_inline env); discriminate.
  - elim (parse_cmd_args_finishes dflt argv P).
Qed.

Lemma shutdown_releases_once_witness :
  let r := main "dump.out" all_deferred ["extract"; "-f"; "data.bin"] in
  let t := trace (snd r) in
  existsb is_on_logger_shutdown t = true
  /\ count is_pool_shutdown t = 1%nat
  /\ count is_delete_runner t = 1%nat
  /\ count is_delete_fsm t = 1%nat
  /\ fst r = Done 0.
Proof.
  cbv zeta.
  pose proof (shutdown_releases_once "dump.out" all_deferred
                ["extract"; "-f"; "data.bin"] eq_refl)
    as (_ & _ & Hp & Hr & Hf & _ & _ & _ & Ho).
  repeat split; assumption || reflexivity.
Defined.

(** ** The argument of an override *)


Lemma override_accepted_iff v :
  override_accepted v = true
  <-> snd (Libc.strtol v) = "" /\ 0 < Libc.int_of_long (fst (Libc.strtol v)).
Proof.
  unfold override_accepted, bad_override.
  destruct (Libc.strtol v) as [n endptr]. cbn [fst snd].
  rewrite negb_true_iff, orb_false_iff, negb_false_iff.
  rewrite String.eqb_eq, Z.leb_gt. reflexivity.
Qed.







(** ** Options that end the process *)

(** C4, as the code has it: when the scan of the options comes to [-h] or
    [--help] with only paths, accepted overrides and operands before it,
    whatever follows, the usage text is printed once and the process
    exits with status 255 ([exit(-1)]); the extraction is not called.
    The runner and the coordinator were constructed before, because the
    arguments are parsed inside the task the coordinator runs. *)
Theorem help_prints_usage dflt env argv0 items h post :
  forallb passes items = true ->
  h = "-h" \/ h = "--help" ->
  let r := main dflt env (argv0 :: render items ++ h :: post) in
  let t := trace (snd r) in
  fst r = Ended (Exited 255)
  /\ t = before_ready env
         ++ [OnLoggerReady; RunnerRun; Usage argv0; ProcessExit 255]
  /\ count is_usage t = 1%nat
  /\ existsb is_dumpfile t = false
  /\ existsb is_new_runner t = true
  /\ existsb is_new_fsm t = true.
Proof.
  intros Hp Hh. cbv zeta.
  assert (P : parse_cmd_args dflt (argv0 :: render items ++ h :: post)
              = Stop (UsageExit argv0)).
  { destruct Hh as [-> | ->].
    - apply (parse_stops_at dflt argv0 items (Help false) post _ Hp eq_refl).
      intros config. apply run_help.
    - apply (parse_stops_at dflt argv0 items (Help true) post _ Hp eq_refl).
      intros config. apply run_help. }
  rewrite (main_usage dflt env _ argv0 P). cbn [fst snd trace].
  unfold before_ready. destruct (start_inline env); repeat split; reflexivity.
Qed.

Lemma help_prints_usage_witness :
  let r := main "dump.out" all_deferred
             ["extract"; "old.out"; "-l"; "log"; "--help"; "-f"] in
  fst r = Ended (Exited 255)
  /\ count is_usage (trace (snd r)) = 1%nat
  /\ existsb is_new_fsm (trace (snd r)) = true.
Proof.
  cbv zeta.
  pose proof (help_prints_usage "dump.out" all_deferred "extract"
                [Operand "old.out"; Path FlagLog Short "log"] "--help" ["-f"]
                eq_refl (or_intror eq_refl))
    as (Ho & _ & Hu & _ & _ & Hn).
  repeat split; assumption.
Defined.

(** C4, as stated, fails twice.  Asked for help alone, the process has
    constructed the runner and the coordinator before the usage text is
    printed.  And a help flag behind an override that is rejected is never
    reached: the process fails on the override and prints no usage. *)
Lemma help_after_construction :
  let r := main "dump.out" all_inline ["extract"; "-h"] in
  let r' := main "dump.out" all_inline
              ["extract"; "--force-block-size"; "x"; "-h"] in
  trace (snd r)
  = [PoolRun; NewRunner; NewFsm; Start; ControllerStart; OnLoggerReady;
     RunnerRun; Usage "extract"; ProcessExit 255]
  /\ fst r' = Ended Fatal
  /\ existsb is_usage (trace (snd r')) = false.
Proof. repeat split; reflexivity. Qed.

(** ** The checks after the scan *)

(** C7: [-f data.bin] alone parses to the configuration with that input
    file, the default output file, no log file and no override. *)
Theorem scenario_a dflt argv0 :
  exists cfg,
    parse_cmd_args dflt [argv0; "-f"; "data.bin"] = Ok cfg
    /\ input_file cfg = "data.bin"
    /\ output_file cfg = dflt
    /\ log_file cfg = None
    /\ overrides cfg
       = {| block_size := 0; extent_size := 0; mod_count := 0 |}
    /\ cfg = set_input_file "data.bin" (init dflt).
Proof.
  exists (set_input_file "data.bin" (init dflt)).
  split; [|repeat split].
  pose proof (parse_items dflt argv0 [Path FlagFile Short "data.bin"] eq_refl)
    as H.
  cbn [render flat_map render_item app short_name] in H. rewrite H.
  cbn [run_items]. rewrite run_path. reflexivity.
Qed.

(** ** Path flags *)

Lemma path_field_set_path f g v c :
  path_field f (set_path g v c)
  = if path_flag_eqb f g then Some v else path_field f c.
Proof. destruct f, g; reflexivity. Qed.

Lemma path_field_set_override f o n c :
  path_field f (set_override o n c) = path_field f c.
Proof. destruct f, o; reflexivity. Qed.

Lemma run_items_path_field argv0 f items : forall c c',
  run_items argv0 items c = Ok c' ->
  path_field f c'
  = match last_path f items with
    | Some v => Some v
    | None => path_field f c
    end.
Proof.
  induction items as [|i items IH]; intros c c' H.
  - inversion H. reflexivity.
  - cbn [run_items] in H.
    destruct (run_item argv0 i c) as [c1|] eqn:E; [|discriminate].
    cbn [bind] in H. rewrite (IH _ _ H).
    destruct i as [g sp v|o j v|long|s]; cbn [last_path].
    + rewrite run_path in E. inversion E; subst.
      destruct (last_path f items); [reflexivity|].
      rewrite path_field_set_path.
      destruct (path_flag_eqb f g); reflexivity.
    + rewrite run_override in E.
      destruct (override_accepted v); [|discriminate]. inversion E; subst.
      destruct (last_path f items); [reflexivity|].
      apply path_field_set_override.
    + rewrite run_help in E. discriminate.
    + inversion E; subst. reflexivity.
Qed.

Lemma sanity_check_returns ops c cfg :
  sanity_check ops c = Ok cfg -> cfg = c /\ ops = [] /\ input_file c <> "".
Proof.
  unfold sanity_check, fail. destruct ops; [|discriminate].
  destruct (String.eqb_spec (input_file c) ""); [discriminate|].
  destruct (_ && _); [discriminate|].
  intros [= <-]. repeat split. assumption.
Qed.

Lemma sanity_check_no_input c :
  input_file c = "" -> sanity_check [] c = Stop (Failure no_input_msg).
Proof. intros H. unfold sanity_check. rewrite H. reflexivity. Qed.

Lemma parse_cmd_args_input dflt argv cfg :
  parse_cmd_args dflt argv = Ok cfg -> input_file cfg <> "".
Proof.
  unfold parse_cmd_args.
  destruct (scan_options _ _ _ _) as [[s c]|]; [|discriminate].
  cbn [bind fst snd]. intros H.
  apply sanity_check_returns in H as (-> & _ & H). exact H.
Qed.

Lemma switch_option_path_field argv0 f c a config config' :
  switch_option argv0 c a config = Ok config' ->
  path_field f config'
  = if c =? path_code f then Some a else path_field f config.
Proof.
  intros H. unfold switch_option, usage, fail in H.
  destruct (Z.eqb_spec c 0) as [->|_].
  { inversion H; subst. destruct f; reflexivity. }
  destruct (Z.eqb_spec c (Getopt.code "f")) as [->|_].
  { inversion H; subst. destruct f; reflexivity. }
  destruct (Z.eqb_spec c (Getopt.code "l")) as [->|_].
  { inversion H; subst. destruct f; reflexivity. }
  destruct (Z.eqb_spec c (Getopt.code "o")) as [->|_].
  { inversion H; subst. destruct f; reflexivity. }
  destruct (Z.eqb_spec c force_block_size) as [->|_].
  { destruct (Libc.strtol a) as [n endptr].
    destruct (bad_override _ _); [discriminate|].
    inversion H; subst. destruct f; reflexivity. }
  destruct (Z.eqb_spec c force_extent_size) as [->|_].
  { destruct (Libc.strtol a) as [n endptr].
    destruct (bad_override _ _); [discriminate|].
    inversion H; subst. destruct f; reflexivity. }
  destruct (Z.eqb_spec c force_mod_count) as [->|_].
  { destruct (Libc.strtol a) as [n endptr].
    destruct (bad_override _ _); [discriminate|].
    inversion H; subst. destruct f; reflexivity. }
  destruct (c =? Getopt.code "h"); discriminate.
Qed.

Lemma scan_options_path_field argv0 f fuel : forall s config s' config',
  scan_options fuel argv0 s config = Ok (s', config') ->
  path_field f config'
  = match last_arg (path_code f) (reported fuel s) with
    | Some a => Some a
    | None => path_field f config
    end.
Proof.
  induction fuel as [|fuel IH]; intros s config s' config' H; [discriminate|].
  rewrite scan_options_step in H. cbn [reported].
  destruct (Getopt.getopt_long optstring long_options s) as [r s1].
  destruct (chosen r =? -1).
  - inversion H; subst. reflexivity.
  - destruct (switch_option argv0 (chosen r) (Getopt.optarg r) config)
      as [config1|] eqn:W; [|discriminate].
    cbn [bind] in H. cbn [last_arg]. rewrite (IH _ _ _ _ H).
    destruct (last_arg (path_code f) (reported fuel s1)); [reflexivity|].
    rewrite (switch_option_path_field argv0 f _ _ _ _ W).
    destruct (chosen r =? path_code f); reflexivity.
Qed.

(** C8: a configuration that [parse_cmd_args] returns has an input file
    that is not empty.  On every argument list whose scan comes to its
    end with no operand left, if the last [-f] that [getopt_long] reported
    has the empty string for argument, or if it reported no [-f] at all,
    the parser fails with the one message that asks for [-f]; so it does
    on a command line of paths and accepted overrides of this kind, on
    [-f ""] alone and on the empty command line. *)
Theorem input_file_required dflt argv0 :
  (forall argv cfg,
     parse_cmd_args dflt argv = Ok cfg -> input_file cfg <> "")
  /\ (forall argv s c,
        scan_options (S (Getopt.measure (Getopt.init argv))) (hd "" argv)
          (Getopt.init argv) (init dflt) = Ok (s, c) ->
        Getopt.skipped s = [] ->
        last_arg (Getopt.code "f") (options_of argv) = Some ""
        \/ last_arg (Getopt.code "f") (options_of argv) = None ->
        parse_cmd_args dflt argv = Stop (Failure no_input_msg))
  /\ (forall items,
        forallb passes items = true ->
        operands items = [] ->
        last_path FlagFile items = Some "" \/ last_path FlagFile items = None ->
        parse_cmd_args dflt (argv0 :: render items)
        = Stop (Failure no_input_msg))
  /\ parse_cmd_args dflt [argv0; "-f"; ""] = Stop (Failure no_input_msg)
  /\ parse_cmd_args dflt [argv0] = Stop (Failure no_input_msg)
  /\ no_input_msg = "You must explicitly specify a path with -f.".
Proof.
  split; [intros argv cfg; apply parse_cmd_args_input|].
  split.
  { intros argv s c S Hs Hlast. unfold parse_cmd_args. rewrite S.
    cbn [bind fst snd]. rewrite Hs. apply sanity_check_no_input.
    pose proof (scan_options_path_field _ FlagFile _ _ _ _ _ S) as F.
    fold (options_of argv) in F. cbn [path_field path_code] in F.
    destruct Hlast as [L|L]; rewrite L in F; cbn [init input_file] in F;
      inversion F; reflexivity. }
  split; [|repeat split; reflexivity].
  intros items Hp Hops Hlast.
  rewrite parse_items by (apply passes_well_formed, Hp).
  destruct (run_items_passes argv0 items (init dflt) Hp) as [c R].
  rewrite R, Hops. cbn [bind]. apply sanity_check_no_input.
  pose proof (run_items_path_field argv0 FlagFile items _ _ R) as F.
  cbn [path_field] in F.
  destruct Hlast as [L|L]; rewrite L in F; cbn [init input_file] in F;
    inversion F; reflexivity.
Qed.

Lemma input_file_required_witness :
  input_file
    {| input_file := "data.bin"; log_file := None; output_file := "dump.out";
       overrides := {| block_size := 0; extent_size := 0; mod_count := 0 |} |}
  <> ""
  /\ parse_cmd_args "dump.out"
       ["extract"; "--file"; "data.bin"; "--force-mod-count"; "4"; "--file="]
     = Stop (Failure no_input_msg)
  /\ parse_cmd_args "dump.out" ["extract"; "-lx"; "--fi="; "-o"; "y"]
     = Stop (Failure no_input_msg).
Proof.
  destruct (input_file_required "dump.out" "extract") as (H1 & H3 & H2 & _).
  split; [|split].
  - apply (H1 ["extract"; "-f"; "data.bin"]). reflexivity.
  - apply (H2 [Path FlagFile Long "data.bin"; Override ForceModCount false "4";
               Path FlagFile LongEq ""]).
    + reflexivity.
    + reflexivity.
    + left. reflexivity.
  - apply (H3 ["extract"; "-lx"; "--fi="; "-o"; "y"]
              {| Getopt.remaining := []; Getopt.nextchar := "";
                 Getopt.skipped := [] |}
              {| input_file := ""; log_file := Some "x"; output_file := "y";
                 overrides := {| block_size := 0; extent_size := 0;
                                 mod_count := 0 |} |}).
    + reflexivity.
    + reflexivity.
    + left. reflexivity.
Defined.

(** An earlier occurrence of a path flag leaves no mark once the flag
    occurs again. *)
Lemma run_item_set_path argv0 f v i c :
  run_item argv0 i (set_path f v c)
  = match i with
    | Path g _ _ =>
        if path_flag_eqb f g then run_item argv0 i c
        else match run_item argv0 i c with
             | Ok c' => Ok (set_path f v c')
             | Stop s => Stop s
             end
    | _ => match run_item argv0 i c with
           | Ok c' => Ok (set_path f v c')
           | Stop s => Stop s
           end
    end.
Proof.
  destruct i as [g sp w|o j w|long|s].
  - rewrite !run_path. destruct f, g; reflexivity.
  - rewrite !run_override. destruct (override_accepted w); [|reflexivity].
    destruct f, o; reflexivity.
  - reflexivity.
  - reflexivity.
Qed.

Lemma run_items_shadow argv0 f v post : forall w c,
  last_path f post = Some w ->
  run_items argv0 post (set_path f v c) = run_items argv0 post c.
Proof.
  induction post as [|i post IH]; intros w c L; [discriminate|].
  cbn [run_items]. rewrite run_item_set_path.
  destruct i as [g sp u|o j u|long|s]; cbn [last_path] in L.
  - destruct (path_flag_eqb f g) eqn:E; [reflexivity|].
    rewrite run_path. cbn [bind].
    destruct (last_path f post) as [w'|]; [|discriminate].
    apply (IH w'). reflexivity.
  - destruct (run_item argv0 (Override o j u) c); cbn [bind]; [|reflexivity].
    apply (IH w), L.
  - reflexivity.
  - cbn [run_item bind]. apply (IH w), L.
Qed.

Lemma operands_app l1 l2 : operands (l1 ++ l2) = operands l1 ++ operands l2.
Proof.
  induction l1 as [|i l1 IH]; [reflexivity|].
  destruct i; cbn [app operands]; rewrite IH; reflexivity.
Qed.

Lemma last_path_app f l1 l2 :
  last_path f (l1 ++ l2)
  = match last_path f l2 with
    | Some v => Some v
    | None => last_path f l1
    end.
Proof.
  induction l1 as [|i l1 IH]; cbn [app last_path].
  - destruct (last_path f l2); reflexivity.
  - destruct i; rewrite IH; destruct (last_path f l2); reflexivity.
Qed.

(** * More of the parser *)

Import Reading.

(** What the [switch] did when the loop goes on. *)
Lemma switch_option_cases argv0 c a config config' :
  switch_option argv0 c a config = Ok config' ->
  (c = 0 /\ config' = config)
  \/ (exists f, c = path_code f /\ config' = set_path f a config)
  \/ (exists o, c = override_code o /\ override_accepted a = true
                /\ config' = set_override o (override_value a) config).
Proof.
  intros H. unfold switch_option, usage, fail in H.
  destruct (Z.eqb_spec c 0) as [->|_].
  { left. inversion H. auto. }
  destruct (Z.eqb_spec c (Getopt.code "f")) as [->|_].
  { right; left. exists FlagFile. inversion H. auto. }
  destruct (Z.eqb_spec c (Getopt.code "l")) as [->|_].
  { right; left. exists FlagLog. inversion H. auto. }
  destruct (Z.eqb_spec c (Getopt.code "o")) as [->|_].
  { right; left. exists FlagOutput. inversion H. auto. }
  assert (O : forall o,
    (let '(v, endptr) := Libc.strtol a in
     if bad_override endptr (override_field o (set_override o (Libc.int_of_long v) config))
     then Stop (Failure (override_msg o))
     else Ok (set_override o (Libc.int_of_long v) config)) = Ok config' ->
    override_accepted a = true
    /\ config' = set_override o (override_value a) config).
  { intros o. unfold override_accepted, override_value.
    destruct (Libc.strtol a) as [n endptr]. cbn [fst].
    replace (override_field o (set_override o (Libc.int_of_long n) config))
      with (Libc.int_of_long n) by (destruct o; reflexivity).
    destruct (bad_override endptr (Libc.int_of_long n)); [discriminate|].
    intros [= <-]. auto. }
  destruct (Z.eqb_spec c force_block_size) as [->|_].
  { right; right. exists ForceBlockSize. split; [reflexivity|].
    apply (O ForceBlockSize), H. }
  destruct (Z.eqb_spec c force_extent_size) as [->|_].
  { right; right. exists ForceExtentSize. split; [reflexivity|].
    apply (O ForceExtentSize), H. }
  destruct (Z.eqb_spec c force_mod_count) as [->|_].
  { right; right. exists ForceModCount. split; [reflexivity|].
    apply (O ForceModCount), H. }
  destruct (c =? Getopt.code "h"); discriminate.
Qed.

Lemma override_field_set_path o f a c :
  override_field o (set_path f a c) = override_field o c.
Proof. destruct o, f; reflexivity. Qed.

Lemma override_field_set_override o o' v c :
  override_field o (set_override o' v c)
  = if override_code o' =? override_code o then v else override_field o c.
Proof. destruct o, o'; reflexivity. Qed.

Lemma int_of_long_range v :
  - 2 ^ 31 <= Libc.int_of_long v <= Libc.INT_MAX.
Proof.
  unfold Libc.int_of_long, Libc.INT_MAX.
  pose proof (Z.mod_pos_bound (v + 2 ^ 31) (2 ^ 32) ltac:(lia)). lia.
Qed.

Lemma accepted_value a :
  override_accepted a = true -> 0 < override_value a <= Libc.INT_MAX.
Proof.
  intros H. apply override_accepted_iff in H as [_ H].
  unfold override_value. pose proof (int_of_long_range (fst (Libc.strtol a))).
  lia.
Qed.

Lemma switch_option_override_field argv0 o c a config config' :
  switch_option argv0 c a config = Ok config' ->
  override_field o config'
  = if c =? override_code o then override_value a else override_field o config.
Proof.
  intros H.
  destruct (switch_option_cases _ _ _ _ _ H)
    as [[-> ->]|[(f & -> & ->)|(o' & -> & _ & ->)]].
  - destruct o; reflexivity.
  - rewrite override_field_set_path. destruct f, o; reflexivity.
  - apply override_field_set_override.
Qed.

Lemma switch_option_keeps_overrides argv0 c a config config' :
  switch_option argv0 c a config = Ok config' ->
  (forall o, int_or_unset (override_field o config)) ->
  forall o, int_or_unset (override_field o config').
Proof.
  intros H I o. rewrite (switch_option_override_field _ o _ _ _ _ H).
  destruct (c =? override_code o) eqn:E; [|apply I].
  destruct (switch_option_cases _ _ _ _ _ H)
    as [[-> _]|[(f & -> & _)|(o' & _ & A & _)]].
  - destruct o; discriminate.
  - destruct f, o; discriminate.
  - pose proof (accepted_value a A). unfold int_or_unset. lia.
Qed.

Lemma scan_options_keeps_overrides argv0 fuel : forall s config s' config',
  scan_options fuel argv0 s config = Ok (s', config') ->
  (forall o, int_or_unset (override_field o config)) ->
  forall o, int_or_unset (override_field o config').
Proof.
  induction fuel as [|fuel IH]; intros s config s' config' H I; [discriminate|].
  rewrite scan_options_step in H.
  destruct (Getopt.getopt_long optstring long_options s) as [r s1].
  destruct (chosen r =? -1).
  - inversion H; subst. exact I.
  - destruct (switch_option argv0 (chosen r) (Getopt.optarg r) config)
      as [config1|] eqn:W; [|discriminate].
    cbn [bind] in H. apply (IH _ _ _ _ H).
    apply (switch_option_keeps_overrides _ _ _ _ _ W I).
Qed.

Lemma scan_options_override_field argv0 o fuel : forall s config s' config',
  scan_options fuel argv0 s config = Ok (s', config') ->
  override_field o config'
  = match last_arg (override_code o) (reported fuel s) with
    | Some a => override_value a
    | None => override_field o config
    end.
Proof.
  induction fuel as [|fuel IH]; intros s config s' config' H; [discriminate|].
  rewrite scan_options_step in H. cbn [reported].
  destruct (Getopt.getopt_long optstring long_options s) as [r s1].
  destruct (chosen r =? -1).
  - inversion H; subst. reflexivity.
  - destruct (switch_option argv0 (chosen r) (Getopt.optarg r) config)
      as [config1|] eqn:W; [|discriminate].
    cbn [bind] in H. cbn [last_arg]. rewrite (IH _ _ _ _ H).
    destruct (last_arg (override_code o) (reported fuel s1)); [reflexivity|].
    rewrite (switch_option_override_field argv0 o _ _ _ _ W).
    destruct (chosen r =? override_code o); reflexivity.
Qed.

Lemma parse_cmd_args_scan dflt argv cfg :
  parse_cmd_args dflt argv = Ok cfg ->
  exists s,
    scan_options (S (Getopt.measure (Getopt.init argv))) (hd "" argv)
      (Getopt.init argv) (init dflt) = Ok (s, cfg)
    /\ sanity_check (Getopt.skipped s) cfg = Ok cfg.
Proof.
  unfold parse_cmd_args. intros H.
  destruct (scan_options _ _ _ _) as [[s c]|]; [|discriminate].
  cbn [bind fst snd] in H.
  pose proof (sanity_check_returns _ _ _ H) as (-> & _ & _).
  exists s. auto.
Qed.

(** X1: a configuration that [parse_cmd_args] returns is valid: the input
    file is not empty, every override is 0 (not forced) or a positive
    [int], and when the block size and the extent size are both forced
    the extent size is a multiple of the block size. *)
Theorem returned_config_is_valid dflt argv cfg :
  parse_cmd_args dflt argv = Ok cfg ->
  input_file cfg <> ""
  /\ (forall o, int_or_unset (override_field o cfg))
  /\ (block_size (overrides cfg) <> 0 ->
      extent_size (overrides cfg) <> 0 ->
      extent_size (overrides cfg) mod block_size (overrides cfg) = 0).
Proof.
  intros H. destruct (parse_cmd_args_scan dflt argv cfg H) as (s & S & C).
  assert (I : forall o, int_or_unset (override_field o cfg)).
  { apply (scan_options_keeps_overrides _ _ _ _ _ _ S).
    intros o. destruct o; cbn; unfold int_or_unset, Libc.INT_MAX; lia. }
  split; [apply (parse_cmd_args_input dflt argv cfg H)|]. split; [exact I|].
  intros Hb He.
  pose proof (I ForceBlockSize) as [Ib _]. pose proof (I ForceExtentSize) as [Ie _].
  cbn [override_field] in Ib, Ie.
  unfold sanity_check, fail in C. destruct (Getopt.skipped s); [|discriminate].
  destruct (input_file cfg =? "")%string; [discriminate|].
  destruct (Z.eqb_spec (extent_size (overrides cfg)) 0); [contradiction|].
  destruct (Z.eqb_spec (block_size (overrides cfg)) 0); [contradiction|].
  cbn [negb andb] in C.
  destruct (Z.eqb_spec (Z.rem (extent_size (overrides cfg))
                              (block_size (overrides cfg))) 0) as [R|];
    [|discriminate].
  rewrite Z.rem_mod_nonneg in R by lia. exact R.
Qed.

Lemma returned_config_is_valid_witness :
  let cfg := {| input_file := "x"; log_file := None; output_file := "dump.out";
                overrides := {| block_size := 512; extent_size := 2048;
                                mod_count := 0 |} |} in
  input_file cfg <> ""
  /\ extent_size (overrides cfg) mod block_size (overrides cfg) = 0.
Proof.
  cbv zeta.
  destruct (returned_config_is_valid "dump.out"
              ["extract"; "--force-extent-size=2048"; "-fx";
               "--force-block-size"; "512"]
              {| input_file := "x"; log_file := None; output_file := "dump.out";
                 overrides := {| block_size := 512; extent_size := 2048;
                                 mod_count := 0 |} |} eq_refl)
    as (H1 & _ & H3).
  split; [exact H1|].
  apply H3; cbn; discriminate.
Defined.

(** X2: the decimal form of a positive [int] is read back as that number:
    with a path, one override of any kind is accepted and stored, and so
    are a block size and an extent size together when the extent size is
    a multiple of the block size. *)
Theorem overrides_are_stored dflt argv0 path :
  path <> "" ->
  (forall o v,
     0 < v <= Libc.INT_MAX ->
     parse_cmd_args dflt [argv0; "-f"; path; override_name o; Libc.format_d v]
     = Ok (set_override o v (set_input_file path (init dflt))))
  /\ (forall b e,
        0 < b <= Libc.INT_MAX -> 0 < e <= Libc.INT_MAX -> e mod b = 0 ->
        parse_cmd_args dflt
          [argv0; "-f"; path; "--force-block-size"; Libc.format_d b;
           "--force-extent-size"; Libc.format_d e]
        = Ok {| input_file := path; log_file := None; output_file := dflt;
                overrides := {| block_size := b; extent_size := e;
                                mod_count := 0 |} |}).
Proof.
  intros Hpath.
  assert (Hp : (path =? "")%string = false) by (apply String.eqb_neq, Hpath).
  split.
  - intros o v Hv. destruct (override_format_d v Hv) as (Sv & Iv & Av).
    pose proof (parse_items dflt argv0
                  [Path FlagFile Short path; Override o false (Libc.format_d v)]
                  eq_refl) as H.
    cbn [render flat_map render_item app short_name] in H. rewrite H.
    cbn [run_items]. rewrite run_path. cbn [bind].
    rewrite run_override, Av. cbn [bind operands].
    unfold override_value. rewrite Sv. cbn [fst]. rewrite Iv.
    unfold sanity_check.
    destruct o; cbn [set_override set_path set_input_file set_block_size
                     set_extent_size set_mod_count input_file overrides
                     block_size extent_size mod_count init];
      rewrite Hp; cbn; try reflexivity;
      destruct (v =? 0); reflexivity.
  - intros b e Hb He Hmod.
    destruct (override_format_d b Hb) as (Sb & Ib & Ab).
    destruct (override_format_d e He) as (Se & Ie & Ae).
    pose proof (parse_items dflt argv0
                  [Path FlagFile Short path;
                   Override ForceBlockSize false (Libc.format_d b);
                   Override ForceExtentSize false (Libc.format_d e)]
                  eq_refl) as H.
    cbn [render flat_map render_item app short_name override_name] in H.
    rewrite H. cbn [run_items]. rewrite run_path. cbn [bind].
    rewrite run_override, Ab. cbn [bind].
    rewrite run_override, Ae. cbn [bind operands].
    unfold override_value. rewrite Sb, Se. cbn [fst]. rewrite Ib, Ie.
    unfold sanity_check.
    cbn [set_override set_path set_input_file set_block_size set_extent_size
         input_file overrides block_size extent_size mod_count log_file
         output_file init].
    rewrite Hp, Z.rem_mod_nonneg, Hmod by lia.
    rewrite andb_false_r. reflexivity.
Qed.

Lemma overrides_are_stored_witness :
  parse_cmd_args "dump.out" ["extract"; "-f"; "x"; "--force-mod-count"; "7"]
  = Ok {| input_file := "x"; log_file := None; output_file := "dump.out";
          overrides := {| block_size := 0; extent_size := 0;
                          mod_count := 7 |} |}
  /\ parse_cmd_args "dump.out"
       ["extract"; "-f"; "x"; "--force-block-size"; "512";
        "--force-extent-size"; "1024"]
     = Ok {| input_file := "x"; log_file := None; output_file := "dump.out";
             overrides := {| block_size := 512; extent_size := 1024;
                             mod_count := 0 |} |}.
Proof.
  assert (Hx : "x" <> "") by (intros H; discriminate H).
  destruct (overrides_are_stored "dump.out" "extract" "x" Hx) as [H1 H2].
  split.
  - apply (H1 ForceModCount 7). unfold Libc.INT_MAX. lia.
  - apply (H2 512 1024); unfold Libc.INT_MAX; try lia. reflexivity.
Defined.

(** X3: on every argument list from which [parse_cmd_args] returns, each
    override holds the value of the argument [getopt_long] reported with
    the last occurrence of its option, and 0 when it reported none. *)
Theorem last_override_wins dflt argv cfg o :
  parse_cmd_args dflt argv = Ok cfg ->
  override_field o cfg
  = match last_arg (override_code o) (options_of argv) with
    | Some a => override_value a
    | None => 0
    end.
Proof.
  intros H. destruct (parse_cmd_args_scan dflt argv cfg H) as (s & S & _).
  rewrite (scan_options_override_field _ o _ _ _ _ _ S).
  fold (options_of argv).
  destruct (last_arg (override_code o) (options_of argv)); [reflexivity|].
  destruct o; reflexivity.
Qed.

Lemma last_override_wins_witness :
  override_field ForceBlockSize
    {| input_file := "x"; log_file := None; output_file := "dump.out";
       overrides := {| block_size := 64; extent_size := 0; mod_count := 0 |} |}
  = override_value "+64".
Proof.
  rewrite (last_override_wins "dump.out"
             ["extract"; "--force-block-size"; "512"; "-fx";
              "--force-b=+64"]
             {| input_file := "x"; log_file := None; output_file := "dump.out";
                overrides := {| block_size := 64; extent_size := 0;
                                mod_count := 0 |} |}
             ForceBlockSize eq_refl).
  reflexivity.
Defined.

(** X4: an operand anywhere among paths and accepted overrides makes the
    parser fail with the message that names the first operand, whether
    or not an input file was given and whatever the overrides. *)
Theorem operand_is_refused dflt argv0 items a rest :
  forallb passes items = true ->
  operands items = a :: rest ->
  parse_cmd_args dflt (argv0 :: render items)
  = Stop (Failure (extra_argument_msg a))
  /\ extra_argument_msg a
     = ("Unexpected extra argument: " ++ quote ++ a ++ quote)%string.
Proof.
  intros Hp Ho. split; [|reflexivity].
  rewrite parse_items by (apply passes_well_formed, Hp).
  destruct (run_items_passes argv0 items (init dflt) Hp) as [c R].
  rewrite R, Ho. reflexivity.
Qed.

Lemma operand_is_refused_witness :
  parse_cmd_args "dump.out"
    ["extract"; "old.out"; "--force-block-size"; "512"; "more";
     "--force-extent-size"; "1000"]
  = Stop (Failure (extra_argument_msg "old.out")).
Proof.
  apply (operand_is_refused "dump.out" "extract"
           [Operand "old.out"; Override ForceBlockSize false "512";
            Operand "more"; Override ForceExtentSize false "1000"]
           "old.out" ["more"] eq_refl eq_refl).
Defined.

(** ** What follows the items *)

(** After items that are scanned, the parser goes on with the rest of the
    argument list from a scanner that has kept their operands. *)
Lemma parse_after_items dflt argv0 items rest :
  forallb well_formed items = true ->
  parse_cmd_args dflt (argv0 :: render items ++ rest)
  = bind (bind (run_items argv0 items (init dflt))
               (fun config =>
                  scan_options (S (weight (render items ++ rest))) argv0
                    (scanner rest (operands items)) config))
         (fun scanned =>
            sanity_check (Getopt.skipped (fst scanned)) (snd scanned)).
Proof.
  intros Hwf. unfold parse_cmd_args, Getopt.init. cbn [hd tl].
  fold (scanner (render items ++ rest) []).
  rewrite measure_scanner, scan_items by (assumption || lia).
  reflexivity.
Qed.

Lemma parse_stops_raw dflt argv0 items rest s :
  forallb passes items = true ->
  (forall sk, exists r s',
     Getopt.getopt_long optstring long_options (scanner rest sk) = (r, s')
     /\ (chosen r =? -1) = false
     /\ forall config,
          switch_option argv0 (chosen r) (Getopt.optarg r) config = Stop s) ->
  parse_cmd_args dflt (argv0 :: render items ++ rest) = Stop s.
Proof.
  intros Hp Hg.
  rewrite parse_after_items by (apply passes_well_formed, Hp).
  destruct (run_items_passes argv0 items (init dflt) Hp) as [c R].
  rewrite R. cbn [bind].
  destruct (Hg (operands items)) as (r & s' & G & C & W).
  rewrite scan_options_step, G, C, W. reflexivity.
Qed.

(** Two ways to write the next option that [getopt_long] reads alike give
    the same result. *)
Lemma parse_same_option dflt argv0 items written written' rest :
  forallb well_formed items = true ->
  (forall sk,
     Getopt.getopt_long optstring long_options (scanner (written ++ rest) sk)
     = Getopt.getopt_long optstring long_options (scanner (written' ++ rest) sk)) ->
  parse_cmd_args dflt (argv0 :: render items ++ written ++ rest)
  = parse_cmd_args dflt (argv0 :: render items ++ written' ++ rest).
Proof.
  intros Hwf Hg. rewrite !parse_after_items by assumption.
  destruct (run_items argv0 items (init dflt)) as [c|]; [|reflexivity].
  cbn [bind]. f_equal.
  rewrite !scan_options_step, Hg.
  destruct (Getopt.getopt_long optstring long_options
              (scanner (written' ++ rest) (operands items))) as [r s'] eqn:G.
  destruct (chosen r =? -1) eqn:C; [reflexivity|].
  destruct (switch_option argv0 (chosen r) (Getopt.optarg r) c)
    as [c'|] eqn:W; [|reflexivity].
  cbn [bind].
  pose proof (scan_continues argv0 _ _ _ _ _ G C W) as D'.
  rewrite <- Hg in G.
  pose proof (scan_continues argv0 _ _ _ _ _ G C W) as D.
  rewrite measure_scanner in D, D'.
  apply scan_options_fuel; rewrite !weight_app in *; lia.
Qed.

Lemma getopt_end_of_options rest sk :
  Getopt.getopt_long optstring long_options (scanner ("--" :: rest) sk)
  = (Getopt.plain (-1),
     {| Getopt.remaining := []; Getopt.nextchar := "";
        Getopt.skipped := sk ++ rest |}).
Proof. cbn. rewrite app_nil_r. reflexivity. Qed.

Lemma parse_end_of_options dflt argv0 items rest :
  forallb well_formed items = true ->
  parse_cmd_args dflt (argv0 :: render items ++ "--" :: rest)
  = bind (run_items argv0 items (init dflt))
         (fun config => sanity_check (operands items ++ rest) config).
Proof.
  intros Hwf. rewrite parse_after_items by assumption.
  destruct (run_items argv0 items (init dflt)) as [c|]; [|reflexivity].
  cbn [bind]. rewrite scan_options_step, getopt_end_of_options. reflexivity.
Qed.

(** X5: "--" ends the options.  At the end of a command line it changes
    nothing; every element behind it is an operand, even one that looks
    like an option: after paths and accepted overrides the parser fails
    with the message that names the first element behind "--", and
    prints no usage even when that element is [-h]. *)
Theorem end_of_options dflt argv0 items :
  forallb passes items = true ->
  operands items = [] ->
  parse_cmd_args dflt (argv0 :: render items ++ ["--"])
  = parse_cmd_args dflt (argv0 :: render items)
  /\ forall a rest,
       parse_cmd_args dflt (argv0 :: render items ++ "--" :: a :: rest)
       = Stop (Failure (extra_argument_msg a)).
Proof.
  intros Hp Ho. pose proof (passes_well_formed items Hp) as Hwf.
  split.
  - rewrite parse_end_of_options, parse_items by assumption.
    rewrite app_nil_r. reflexivity.
  - intros a rest. rewrite parse_end_of_options by assumption.
    destruct (run_items_passes argv0 items (init dflt) Hp) as [c R].
    rewrite R, Ho. reflexivity.
Qed.

Lemma end_of_options_witness :
  parse_cmd_args "dump.out" ["extract"; "-f"; "x"; "--"]
  = parse_cmd_args "dump.out" ["extract"; "-f"; "x"]
  /\ parse_cmd_args "dump.out" ["extract"; "-f"; "x"; "--"; "-h"; "-l"]
     = Stop (Failure (extra_argument_msg "-h")).
Proof.
  destruct (end_of_options "dump.out" "extract" [Path FlagFile Short "x"]
              eq_refl eq_refl) as [H1 H2].
  split; [exact H1|exact (H2 "-h" ["-l"])].
Defined.

(** X6: an option that takes an argument and stands last, with nothing
    behind it, makes the parser print the usage and exit: [getopt_long]
    reports '?', which falls to the default case of the [switch]. *)
Theorem missing_argument_prints_usage dflt argv0 items a :
  forallb passes items = true ->
  takes_argument a = true ->
  parse_cmd_args dflt (argv0 :: render items ++ [a]) = Stop (UsageExit argv0).
Proof.
  intros Hp Ha. apply parse_stops_raw; [exact Hp|].
  intros sk. unfold takes_argument in Ha. cbn [existsb] in Ha.
  repeat (apply orb_true_iff in Ha as [Ha|Ha]);
    try discriminate Ha;
    apply String.eqb_eq in Ha; subst a;
    eexists _, _; (split; [reflexivity|split; [reflexivity|]]);
    intros config; reflexivity.
Qed.

Lemma missing_argument_prints_usage_witness :
  parse_cmd_args "dump.out" ["extract"; "-f"; "x"; "--force-mod-count"]
  = Stop (UsageExit "extract").
Proof.
  apply (missing_argument_prints_usage "dump.out" "extract"
           [Path FlagFile Short "x"] "--force-mod-count" eq_refl eq_refl).
Defined.

(** ** Options the program does not have *)

Lemma not_short_option c :
  is_short_option c = false ->
  Ascii.eqb c "f" = false /\ Ascii.eqb c "l" = false
  /\ Ascii.eqb c "o" = false /\ Ascii.eqb c "h" = false.
Proof.
  unfold is_short_option, short_options. cbn [existsb].
  rewrite !orb_false_iff. tauto.
Qed.

Lemma getopt_unknown_short c cs rest sk :
  is_short_option c = false ->
  Ascii.eqb c "-" = false ->
  exists s',
    Getopt.getopt_long optstring long_options
      (scanner (String "-" (String c cs) :: rest) sk)
    = (Getopt.plain Getopt.question, s').
Proof.
  intros Hc Hd. destruct (not_short_option c Hc) as (Hf & Hl & Ho & Hh).
  unfold Getopt.getopt_long, scanner.
  cbn [Getopt.nextchar Getopt.remaining Getopt.skipped Getopt.skip_nonoptions
       Getopt.is_nonoption].
  rewrite Ascii.eqb_refl. cbn [negb]. rewrite Hd.
  unfold Getopt.short_option, optstring.
  destruct (Ascii.eqb c ":") eqn:Hcolon; [eexists; reflexivity|].
  cbn [Getopt.short_lookup]. rewrite Hf, Hcolon, Hl, Ho, Hh.
  eexists; reflexivity.
Qed.

Lemma prefix_head c n d m :
  Ascii.eqb c d = false -> String.prefix (String c n) (String d m) = false.
Proof.
  intros H. cbn [String.prefix].
  destruct (ascii_dec c d) as [->|]; [|reflexivity].
  rewrite Ascii.eqb_refl in H. discriminate.
Qed.

Lemma prefix_refl s : String.prefix s s = true.
Proof.
  induction s as [|c s IH]; [reflexivity|].
  cbn [String.prefix]. destruct (ascii_dec c c); [exact IH|contradiction].
Qed.

(** A name that is the beginning of no entry is found nowhere. *)
Lemma find_long_none lo nm :
  (forall p, In p lo -> String.prefix nm (Getopt.name p) = false) ->
  Getopt.find_long lo nm = Some None.
Proof.
  intros H. unfold Getopt.find_long.
  destruct (find (fun p => (Getopt.name p =? nm)%string) lo) as [p|] eqn:F.
  - apply find_some in F as [Hin E]. apply String.eqb_eq in E.
    specialize (H p Hin). rewrite E, prefix_refl in H. discriminate.
  - assert (E : filter (fun p => String.prefix nm (Getopt.name p)) lo = []).
    { induction lo as [|p lo IH]; [reflexivity|].
      cbn [filter]. rewrite (H p (or_introl eq_refl)).
      apply IH.
      - intros q Hq. apply H. right. exact Hq.
      - cbn [find] in F. destruct (Getopt.name p =? nm)%string;
          [discriminate|exact F]. }
    rewrite E. reflexivity.
Qed.

Lemma find_long_unknown c n :
  is_short_option c = false ->
  Getopt.find_long long_options (String c n) = Some None.
Proof.
  intros Hc. destruct (not_short_option c Hc) as (Hf & Hl & Ho & Hh).
  apply find_long_none. intros p Hin. unfold long_options in Hin.
  cbn [In] in Hin.
  repeat (destruct Hin as [<-|Hin]); try contradiction;
    cbn [Getopt.name]; apply prefix_head; assumption.
Qed.

Lemma getopt_unknown_long c body rest sk :
  is_short_option c = false ->
  exists s',
    Getopt.getopt_long optstring long_options
      (scanner (String "-" (String "-" (String c body)) :: rest) sk)
    = (Getopt.plain Getopt.question, s').
Proof.
  intros Hc. unfold Getopt.getopt_long, scanner.
  cbn [Getopt.nextchar Getopt.remaining Getopt.skipped Getopt.skip_nonoptions
       Getopt.is_nonoption].
  rewrite Ascii.eqb_refl. cbn [negb].
  unfold Getopt.process_long_option. cbn [Getopt.split_eq].
  destruct (Ascii.eqb c "=").
  - eexists; reflexivity.
  - destruct (Getopt.split_eq body) as [n v].
    rewrite (find_long_unknown c n Hc). eexists; reflexivity.
Qed.

(** X7: an option the program does not have makes the parser print the
    usage and exit, whatever follows it: a cluster that starts with a
    character other than f, l, o and h, and a long option whose name
    starts with a character other than these, the first characters of
    the names of the long options. *)
Theorem unknown_option_prints_usage dflt argv0 items c cs rest :
  forallb passes items = true ->
  is_short_option c = false ->
  (Ascii.eqb c "-" = false ->
   parse_cmd_args dflt
     (argv0 :: render items ++ String "-" (String c cs) :: rest)
   = Stop (UsageExit argv0))
  /\ parse_cmd_args dflt
       (argv0 :: render items ++ String "-" (String "-" (String c cs)) :: rest)
     = Stop (UsageExit argv0).
Proof.
  intros Hp Hc. split.
  - intros Hd. apply parse_stops_raw; [exact Hp|]. intros sk.
    destruct (getopt_unknown_short c cs rest sk Hc Hd) as [s' G].
    exists (Getopt.plain Getopt.question), s'.
    split; [exact G|]. split; reflexivity.
  - apply parse_stops_raw; [exact Hp|]. intros sk.
    destruct (getopt_unknown_long c cs rest sk Hc) as [s' G].
    exists (Getopt.plain Getopt.question), s'.
    split; [exact G|]. split; reflexivity.
Qed.

Lemma unknown_option_prints_usage_witness :
  parse_cmd_args "dump.out" ["extract"; "-f"; "x"; "-vf"; "y"]
  = Stop (UsageExit "extract")
  /\ parse_cmd_args "dump.out" ["extract"; "-f"; "x"; "--verbose"]
     = Stop (UsageExit "extract").
Proof.
  destruct (unknown_option_prints_usage "dump.out" "extract"
              [Path FlagFile Short "x"] "v"%char "f" ["y"] eq_refl eq_refl)
    as [H1 _].
  destruct (unknown_option_prints_usage "dump.out" "extract"
              [Path FlagFile Short "x"] "v"%char "erbose" [] eq_refl eq_refl)
    as [_ H2].
  split; [apply H1; reflexivity|exact H2].
Defined.

(** ** Spellings and abbreviations *)

(** X8: the ways to write an option with its argument are read alike,
    whatever follows: the argument joined to the short option (when it is
    not empty), the argument joined to the long option with "=", and the
    argument as the next element after the short or the long option. *)
Theorem spellings_agree dflt argv0 items v rest :
  forallb well_formed items = true ->
  (forall f,
     (v <> "" ->
      parse_cmd_args dflt (argv0 :: render items ++ (short_name f ++ v)%string :: rest)
      = parse_cmd_args dflt (argv0 :: render items ++ short_name f :: v :: rest))
     /\ parse_cmd_args dflt (argv0 :: render items ++ long_name f :: v :: rest)
        = parse_cmd_args dflt (argv0 :: render items ++ short_name f :: v :: rest)
     /\ parse_cmd_args dflt
          (argv0 :: render items ++ (long_name f ++ "=" ++ v)%string :: rest)
        = parse_cmd_args dflt (argv0 :: render items ++ short_name f :: v :: rest))
  /\ (forall o,
        parse_cmd_args dflt
          (argv0 :: render items ++ (override_name o ++ "=" ++ v)%string :: rest)
        = parse_cmd_args dflt
            (argv0 :: render items ++ override_name o :: v :: rest)).
Proof.
  intros Hwf. split.
  - intros f. split; [|split].
    + intros Hv.
      apply (parse_same_option dflt argv0 items
               [(short_name f ++ v)%string] [short_name f; v] rest Hwf).
      intros sk. destruct v as [|c v]; [contradiction|].
      destruct f; reflexivity.
    + apply (parse_same_option dflt argv0 items
               [long_name f; v] [short_name f; v] rest Hwf).
      intros sk. destruct f; reflexivity.
    + apply (parse_same_option dflt argv0 items
               [(long_name f ++ "=" ++ v)%string] [short_name f; v] rest Hwf).
      intros sk. destruct f; reflexivity.
  - intros o.
    apply (parse_same_option dflt argv0 items
             [(override_name o ++ "=" ++ v)%string] [override_name o; v] rest Hwf).
    intros sk. destruct o; reflexivity.
Qed.

Lemma spellings_agree_witness :
  parse_cmd_args "dump.out" ["extract"; "-l"; "log"; "-fdata.bin"; "junk"]
  = parse_cmd_args "dump.out" ["extract"; "-l"; "log"; "-f"; "data.bin"; "junk"]
  /\ parse_cmd_args "dump.out"
       ["extract"; "-l"; "log"; "--force-mod-count=x"; "junk"]
     = parse_cmd_args "dump.out"
         ["extract"; "-l"; "log"; "--force-mod-count"; "x"; "junk"].
Proof.
  destruct (spellings_agree "dump.out" "extract" [Path FlagLog Short "log"]
              "data.bin" ["junk"] eq_refl) as [H1 _].
  destruct (spellings_agree "dump.out" "extract" [Path FlagLog Short "log"]
              "x" ["junk"] eq_refl) as [_ H2].
  split.
  - assert (Hv : "data.bin" <> "") by (intros H; discriminate H).
    exact (proj1 (H1 FlagFile) Hv).
  - exact (H2 ForceModCount).
Defined.

Lemma prefix_trans a : forall b c,
  String.prefix a b = true -> String.prefix b c = true ->
  String.prefix a c = true.
Proof.
  induction a as [|x a IH]; intros b c Hab Hbc; [destruct c; reflexivity|].
  destruct b as [|y b]; [discriminate|].
  destruct c as [|z c]; [discriminate|].
  cbn [String.prefix] in *.
  destruct (ascii_dec x y) as [->|]; [|discriminate].
  destruct (ascii_dec y z) as [->|]; [|discriminate].
  apply (IH b c); assumption.
Qed.

(** The beginning of a name without "=" has none. *)
Lemma split_eq_prefix nm : forall full,
  String.prefix nm full = true ->
  Getopt.split_eq full = (full, None) ->
  Getopt.split_eq nm = (nm, None).
Proof.
  induction nm as [|c nm IH]; intros full Hp Hs; [reflexivity|].
  destruct full as [|d full]; [discriminate|].
  cbn [String.prefix] in Hp. destruct (ascii_dec c d) as [->|]; [|discriminate].
  cbn [Getopt.split_eq] in *.
  destruct (Ascii.eqb d "="); [discriminate|].
  destruct (Getopt.split_eq full) as [n v] eqn:E.
  inversion Hs; subst. rewrite (IH full Hp E). reflexivity.
Qed.

(** The beginning of the name of one entry only is found as that entry,
    and so is the whole name. *)
Lemma find_long_unique lo nm o :
  In o lo ->
  String.prefix nm (Getopt.name o) = true ->
  (forall o', In o' lo -> String.prefix nm (Getopt.name o') = true -> o' = o) ->
  Getopt.find_long lo nm = Some (Some o).
Proof.
  intros Hin Hp Hu. unfold Getopt.find_long.
  destruct (find (fun p => (Getopt.name p =? nm)%string) lo) as [p|] eqn:F.
  - apply find_some in F as [Hp' E]. apply String.eqb_eq in E.
    assert (X : p = o) by (apply Hu; [exact Hp'|rewrite E; apply prefix_refl]).
    rewrite X. reflexivity.
  - destruct (filter (fun p => String.prefix nm (Getopt.name p)) lo)
      as [|p others] eqn:E.
    + assert (X : In o (filter (fun p => String.prefix nm (Getopt.name p)) lo))
        by (apply filter_In; auto).
      rewrite E in X. contradiction.
    + assert (A : forall q, In q (p :: others) -> q = o).
      { intros q Hq. rewrite <- E in Hq. apply filter_In in Hq as [H1 H2].
        apply Hu; assumption. }
      rewrite (A p (or_introl eq_refl)).
      assert (S : forallb (Getopt.same_target o) others = true).
      { apply forallb_forall. intros q Hq.
        rewrite (A q (or_intror Hq)). unfold Getopt.same_target.
        rewrite !Bool.eqb_reflx, Z.eqb_refl. reflexivity. }
      rewrite S. reflexivity.
Qed.

Lemma long_names_plain o :
  In o long_options -> Getopt.split_eq (Getopt.name o) = (Getopt.name o, None).
Proof.
  unfold long_options. cbn [In].
  intros H. repeat (destruct H as [<-|H]); try contradiction; reflexivity.
Qed.

(** X9: a long option may be cut short: the beginning of the name of one
    long option only, put behind "--", is read as that option, whatever
    follows. *)
Theorem abbreviation_is_read dflt argv0 items o nm rest :
  forallb well_formed items = true ->
  In o long_options ->
  nm <> "" ->
  String.prefix nm (Getopt.name o) = true ->
  (forall o', In o' long_options ->
              String.prefix nm (Getopt.name o') = true -> o' = o) ->
  parse_cmd_args dflt (argv0 :: render items ++ ("--" ++ nm)%string :: rest)
  = parse_cmd_args dflt
      (argv0 :: render items ++ ("--" ++ Getopt.name o)%string :: rest).
Proof.
  intros Hwf Hin Hnm Hp Hu.
  apply (parse_same_option dflt argv0 items
           [("--" ++ nm)%string] [("--" ++ Getopt.name o)%string] rest Hwf).
  intros sk.
  assert (Hname : Getopt.name o <> "").
  { intros E. rewrite E in Hp. destruct nm; [contradiction|discriminate]. }
  pose proof (long_names_plain o Hin) as So.
  pose proof (split_eq_prefix nm _ Hp So) as Sn.
  assert (Fo : Getopt.find_long long_options (Getopt.name o) = Some (Some o)).
  { apply find_long_unique; [exact Hin|apply prefix_refl|].
    intros o' Hin' Hp'. apply Hu; [exact Hin'|].
    apply (prefix_trans nm (Getopt.name o)); assumption. }
  pose proof (find_long_unique long_options nm o Hin Hp Hu) as Fn.
  unfold Getopt.getopt_long, scanner.
  cbn [Getopt.nextchar Getopt.remaining Getopt.skipped Getopt.skip_nonoptions
       Getopt.is_nonoption app].
  destruct nm as [|c nm]; [contradiction|].
  destruct (Getopt.name o) as [|d full] eqn:En; [contradiction|].
  cbn [String.append Getopt.is_nonoption].
  rewrite Ascii.eqb_refl. cbn [negb].
  unfold Getopt.process_long_option. rewrite Sn, So, Fn, Fo. reflexivity.
Qed.

Lemma abbreviation_is_read_witness :
  parse_cmd_args "dump.out" ["extract"; "--fi"; "data.bin"; "--force-m=3"]
  = parse_cmd_args "dump.out" ["extract"; "--file"; "data.bin"; "--force-m=3"].
Proof.
  apply (abbreviation_is_read "dump.out" "extract" []
           (Getopt.Build_option_t "file" true false (Getopt.code "f"))
           "fi" ["data.bin"; "--force-m=3"] eq_refl).
  - unfold long_options. cbn [In]. auto.
  - intros H; discriminate H.
  - reflexivity.
  - intros o' Hin Hp. unfold long_options in Hin. cbn [In] in Hin.
    repeat (destruct Hin as [<-|Hin]); try contradiction; try reflexivity;
      vm_compute in Hp; discriminate Hp.
Defined.

Lemma find_long_ambiguous nm :
  nm <> "" -> String.prefix nm "force-" = true ->
  Getopt.find_long long_options nm = None.
Proof.
  intros Hnm Hp. apply String.prefix_correct in Hp.
  remember (String.length nm) as n eqn:L.
  destruct n as [|[|[|[|[|[|[|n]]]]]]]; cbn in Hp; subst nm;
    try reflexivity; contradiction.
Qed.

(** X10: the beginning that the names of several long options share is
    ambiguous: "--f" and every longer beginning of "--force-", which
    three options share, make the parser print the usage and exit. *)
Theorem ambiguous_abbreviation_prints_usage dflt argv0 items nm rest :
  forallb passes items = true ->
  nm <> "" ->
  String.prefix nm "force-" = true ->
  parse_cmd_args dflt (argv0 :: render items ++ ("--" ++ nm)%string :: rest)
  = Stop (UsageExit argv0).
Proof.
  intros Hp Hnm Hpre. apply parse_stops_raw; [exact Hp|]. intros sk.
  pose proof (find_long_ambiguous nm Hnm Hpre) as F.
  pose proof (split_eq_prefix nm "force-" Hpre eq_refl) as Sn.
  destruct nm as [|c nm]; [contradiction|].
  eexists _, _. split; [|split].
  - unfold Getopt.getopt_long, scanner.
    cbn [Getopt.nextchar Getopt.remaining Getopt.skipped Getopt.skip_nonoptions
         Getopt.is_nonoption String.append].
    rewrite Ascii.eqb_refl. cbn [negb].
    unfold Getopt.process_long_option. rewrite Sn, F. reflexivity.
  - reflexivity.
  - intros config. reflexivity.
Qed.

Lemma ambiguous_abbreviation_prints_usage_witness :
  parse_cmd_args "dump.out" ["extract"; "-f"; "x"; "--force"; "512"]
  = Stop (UsageExit "extract").
Proof.
  apply (ambiguous_abbreviation_prints_usage "dump.out" "extract"
           [Path FlagFile Short "x"] "force" ["512"] eq_refl).
  - intros H; discriminate H.
  - reflexivity.
Defined.

(** * More of the lifecycle *)

(** X11: the extraction is called in an execution exactly when
    [parse_cmd_args] returns, once, with the configuration it returned;
    the call comes after the call of [run] and before its return. *)
Theorem extraction_called_once dflt env argv :
  let t := trace (snd (main dflt env argv)) in
  filter is_dumpfile t
  = match parse_cmd_args dflt argv with
    | Ok cfg => [Dumpfile cfg]
    | Stop _ => []
    end
  /\ only_after is_runner_run is_dumpfile t = true
  /\ only_after is_dumpfile is_runner_returned t = true.
Proof.
  executions dflt env argv; rewrite P; repeat split; reflexivity.
Qed.

(** X12: how the process ends: [main] returns 0 exactly when the
    arguments parse and the extraction returns; the process exits with
    status 255 exactly when the parser prints the usage; it ends with a
    fatal error exactly when the parser or the extraction fails.  The
    pool is never left waiting for a callback that does not come, and no
    released object is used. *)
Theorem process_ending dflt env argv :
  let o := fst (main dflt env argv) in
  (o = Done 0
   <-> exists cfg, parse_cmd_args dflt argv = Ok cfg
                   /\ dumpfile_returns env cfg = true)
  /\ (o = Ended (Exited 255)
      <-> exists name, parse_cmd_args dflt argv = Stop (UsageExit name))
  /\ (o = Ended Fatal
      <-> (exists msg, parse_cmd_args dflt argv = Stop (Failure msg))
          \/ exists cfg, parse_cmd_args dflt argv = Ok cfg
                         /\ dumpfile_returns env cfg = false)
  /\ o <> Ended Hung
  /\ o <> Ended MemoryFault
  /\ o <> Ended OutOfSteps.
Proof.
  cbv zeta.
  destruct (main_cases dflt env argv)
    as [(cfg & P & D & O & _)|[(cfg & P & D & O & _)|
        [(name & P & O & _)|(msg & P & O & _)]]];
    rewrite O, P;
    (split; [split; [intros H; try discriminate H; eauto|
                     intros (x & H & H'); try discriminate H; try congruence]|]);
    (split; [split; [intros H; try discriminate H; eauto|
                     intros (x & H); try discriminate H; try congruence]|]);
    (split; [split; [intros H; try discriminate H; eauto|
                     intros [(x & H)|(x & H & H')];
                     try discriminate H; try congruence]|]);
    repeat split; discriminate.
Qed.

(** X13: in every execution the loggers are asked to start once and the
    task is run once; the loggers are asked to shut down as often as
    [run] returns, at most once; every such request is completed and
    followed by one pool-stop request. *)
Theorem requests_are_paired dflt env argv :
  let t := trace (snd (main dflt env argv)) in
  count is_controller_start t = 1%nat
  /\ count is_runner_run t = 1%nat
  /\ (count is_runner_returned t <= 1)%nat
  /\ count is_controller_shutdown t = count is_runner_returned t
  /\ count is_on_logger_shutdown t = count is_controller_shutdown t
  /\ count is_pool_shutdown t = count is_on_logger_shutdown t
  /\ count is_shutdown_callback t
     = (if shutdown_inline env then 0 else count is_controller_shutdown t)%nat.
Proof.
  executions dflt env argv; repeat split; cbn; lia.
Qed.

Section EndOfExecution.

Variable dflt : string.
Variable env : environment.
Variable argv : list string.

(** The world at the end of an execution, case by case. *)
Lemma final_world :
  let r := main dflt env argv in
  (fst r = Done 0
   /\ runner_live (snd r) = false /\ fsm_live (snd r) = false
   /\ ready_pending (snd r) = false /\ shutdown_pending (snd r) = false
   /\ pool_stopping (snd r) = true
   /\ count is_release (trace (snd r)) = 2%nat)
  \/ (fst r <> Done 0
      /\ runner_live (snd r) = true /\ fsm_live (snd r) = true
      /\ ready_pending (snd r) = false /\ shutdown_pending (snd r) = false
      /\ pool_stopping (snd r) = false
      /\ count is_release (trace (snd r)) = 0%nat).
Proof.
  cbv zeta.
  destruct (parse_cmd_args dflt argv) as [cfg|[name|msg|]] eqn:P.
  - destruct (dumpfile_returns env cfg) eqn:D.
    + left. rewrite (main_returns dflt env argv cfg P D).
      cbn [fst snd trace runner_live fsm_live ready_pending shutdown_pending
           pool_stopping].
      unfold before_ready, after_run.
      destruct (start_inline env), (shutdown_inline env); repeat split.
    + right. rewrite (main_engine_fails dflt env argv cfg P D).
      cbn [fst snd trace runner_live fsm_live ready_pending shutdown_pending
           pool_stopping].
      unfold before_ready.
      destruct (start_inline env); repeat split; discriminate.
  - right. rewrite (main_usage dflt env argv name P).
    cbn [fst snd trace runner_live fsm_live ready_pending shutdown_pending
         pool_stopping].
    unfold before_ready. destruct (start_inline env); repeat split; discriminate.
  - right. rewrite (main_failure dflt env argv msg P).
    cbn [fst snd trace runner_live fsm_live ready_pending shutdown_pending
         pool_stopping].
    unfold before_ready. destruct (start_inline env); repeat split; discriminate.
  - elim (parse_cmd_args_finishes dflt argv P).
Qed.

End EndOfExecution.

(** X14: the runner and the coordinator are released together, and only
    in an execution in which [main] returns: when the task ends the
    process, both are still alive, nothing was released and the pool was
    not asked to stop.  Either way no callback is left owed at the end. *)
Theorem released_only_on_return dflt env argv :
  let r := main dflt env argv in
  runner_live (snd r) = fsm_live (snd r)
  /\ (fsm_live (snd r) = false <-> fst r = Done 0)
  /\ pool_stopping (snd r) = negb (fsm_live (snd r))
  /\ count is_release (trace (snd r)) = (if fsm_live (snd r) then 0 else 2)%nat
  /\ ready_pending (snd r) = false
  /\ shutdown_pending (snd r) = false.
Proof.
  cbv zeta.
  destruct (final_world dflt env argv)
    as [(O & R & F & RP & SP & PS & C)|(O & R & F & RP & SP & PS & C)];
    rewrite R, F, RP, SP, PS, C; repeat split; try reflexivity;
    try (intros _; exact O); try discriminate.
  intros H. contradiction.
Qed.

(** X15: whether the log controller completes a request at once or calls
    back later makes no difference to what the program does: two
    surroundings in which the extraction behaves alike give the same
    ending and, the deliveries of callbacks by the pool left out, the
    same events in the same order. *)
Theorem inline_and_deferred_agree dflt env env' argv :
  (forall cfg, dumpfile_returns env cfg = dumpfile_returns env' cfg) ->
  fst (main dflt env argv) = fst (main dflt env' argv)
  /\ without_callbacks (trace (snd (main dflt env argv)))
     = without_callbacks (trace (snd (main dflt env' argv))).
Proof.
  intros H.
  destruct (parse_cmd_args dflt argv) as [cfg|[name|msg|]] eqn:P.
  - destruct (dumpfile_returns env cfg) eqn:D.
    + rewrite (main_returns dflt env argv cfg P D).
      rewrite H in D. rewrite (main_returns dflt env' argv cfg P D).
      cbn [fst snd trace]. unfold before_ready, after_run.
      destruct (start_inline env), (shutdown_inline env),
        (start_inline env'), (shutdown_inline env'); split; reflexivity.
    + rewrite (main_engine_fails dflt env argv cfg P D).
      rewrite H in D. rewrite (main_engine_fails dflt env' argv cfg P D).
      cbn [fst snd trace]. unfold before_ready.
      destruct (start_inline env), (start_inline env'); split; reflexivity.
  - rewrite (main_usage dflt env argv name P), (main_usage dflt env' argv name P).
    cbn [fst snd trace]. unfold before_ready.
    destruct (start_inline env), (start_inline env'); split; reflexivity.
  - rewrite (main_failure dflt env argv msg P), (main_failure dflt env' argv msg P).
    cbn [fst snd trace]. unfold before_ready.
    destruct (start_inline env), (start_inline env'); split; reflexivity.
  - elim (parse_cmd_args_finishes dflt argv P).
Qed.

Lemma inline_and_deferred_agree_witness :
  fst (main "dump.out" all_inline ["extract"; "-f"; "x"])
  = fst (main "dump.out" all_deferred ["extract"; "-f"; "x"])
  /\ without_callbacks
       (trace (snd (main "dump.out" all_inline ["extract"; "-f"; "x"])))
     = without_callbacks
         (trace (snd (main "dump.out" all_deferred ["extract"; "-f"; "x"]))).
Proof.
  apply (inline_and_deferred_agree "dump.out" all_inline all_deferred
           ["extract"; "-f"; "x"]).
  intros cfg. reflexivity.
Defined.

Lemma add_events_spec evs : forall w,
  add_events evs w
  = {| trace := trace w ++ evs; runner_live := runner_live w;
       fsm_live := fsm_live w; ready_pending := ready_pending w;
       shutdown_pending := shutdown_pending w;
       pool_stopping := pool_stopping w |}.
Proof.
  induction evs as [|e evs IH]; intros w.
  - destruct w. cbn. rewrite app_nil_r. reflexivity.
  - unfold add_events in *. cbn [fold_left]. rewrite IH.
    destruct w. cbn. rewrite <- app_assoc. reflexivity.
Qed.

(** X16: the coordinator with any task.  For a runner whose [run] only
    leaves its own events and then returns or ends the process, [start]
    followed by the loop of the pool, from a world in which coordinator
    and runner are alive, does this and nothing else: it asks the loggers
    to start, enters [on_logger_ready] (called back by the pool when the
    activation was deferred) and runs the task; when the task returns it
    asks the loggers to shut down, enters [on_logger_shutdown], asks the
    pool to stop and releases the runner and itself, and the pool stops;
    when the task ends the process nothing follows and both objects stay
    alive. *)
Theorem lifecycle_of_any_task env r evs result t :
  behaves r evs result ->
  let e := mbind (start env r) (fun _ => pool_loop env r 3) (fresh t) in
  let head :=
    t ++ [Start; ControllerStart]
      ++ (if start_inline env then [] else [ReadyCallback])
      ++ [OnLoggerReady; RunnerRun] ++ evs in
  match result with
  | Done _ =>
      fst e = Done tt
      /\ trace (snd e) = head ++ [RunnerReturned] ++ after_run env
      /\ runner_live (snd e) = false /\ fsm_live (snd e) = false
  | Ended how =>
      fst e = Ended how
      /\ trace (snd e) = head
      /\ runner_live (snd e) = true /\ fsm_live (snd e) = true
  end.
Proof.
  intros B. cbv zeta. destruct env as [[|] [|] returns]; unfold after_run;
    cbn [start_inline shutdown_inline];
    cbv -[app run add_events]; rewrite (B _), add_events_spec; destruct result;
    cbv -[app run add_events]; rewrite ?(B _), ?add_events_spec;
    cbv -[app run add_events];
    repeat split; repeat rewrite <- app_assoc; reflexivity.
Qed.

(** X17: the task of this program does not touch the lifecycle: in every
    world [run] of [extract::runner] only adds events of its own -- the
    usage text and the exit, the message of a failure, or the call of the
    extraction -- at most two, and whether it returns does not depend on
    the world. *)
Theorem runner_behaves dflt env argv :
  exists evs result,
    behaves (runner dflt env argv) evs result
    /\ forallb task_event evs = true
    /\ (List.length evs <= 2)%nat.
Proof.
  unfold behaves, runner, extractmain. cbn [run].
  destruct (parse_cmd_args dflt argv) as [cfg|[name|msg|]] eqn:P.
  - destruct (dumpfile_returns env cfg) eqn:D.
    + exists [Dumpfile cfg], (Done tt). split; [|split; [reflexivity|cbn; lia]].
      intros w. unfold dumpfile, mbind. cbn. rewrite D. reflexivity.
    + exists [Dumpfile cfg], (Ended Fatal).
      split; [|split; [reflexivity|cbn; lia]].
      intros w. unfold dumpfile, mbind. cbn. rewrite D. reflexivity.
  - exists [Usage name; ProcessExit 255], (Ended (Exited 255)).
    split; [|split; [reflexivity|cbn; lia]]. intros w. reflexivity.
  - exists [Failed msg], (Ended Fatal).
    split; [|split; [reflexivity|cbn; lia]]. intros w. reflexivity.
  - elim (parse_cmd_args_finishes dflt argv P).
Qed.

Lemma lifecycle_of_any_task_witness :
  let e := mbind (start all_deferred (runner "dump.out" all_deferred ["extract"; "-h"]))
             (fun _ => pool_loop all_deferred
                         (runner "dump.out" all_deferred ["extract"; "-h"]) 3)
             (fresh [NewRunner; NewFsm]) in
  fst e = Ended (Exited 255)
  /\ trace (snd e)
     = [NewRunner; NewFsm; Start; ControllerStart; ReadyCallback;
        OnLoggerReady; RunnerRun; Usage "extract"; ProcessExit 255].
Proof.
  cbv zeta.
  assert (B : behaves (runner "dump.out" all_deferred ["extract"; "-h"])
                [Usage "extract"; ProcessExit 255] (Ended (Exited 255)))
    by (intros w; reflexivity).
  pose proof (lifecycle_of_any_task all_deferred _ _ _ [NewRunner; NewFsm] B)
    as H.
  cbv zeta in H. destruct H as (H1 & H2 & _). split; [exact H1|exact H2].
Defined.

(** * The order of the lifecycle, in full *)

Import Precise.

(** C2, as the code has it.  The activation of the loggers is complete
    when [controller.start] returns true or, when it returns false, when
    the pool delivers the ready callback; the deactivation likewise.  In
    every execution: a callback is delivered only after its request;
    [on_logger_ready] is entered and [run] is called only after the
    activation is complete; the deactivation is requested only after
    [run] returned; [on_logger_shutdown] is entered and the pool is asked
    to stop only after the deactivation was requested and is complete;
    the pool stops only after it was asked to; and the exit of a process
    whose [main] returns comes only after the pool-stop request.  The
    events of the lifecycle, requests and deliveries included, come each
    at most once and in this one order: the whole chain when [main]
    returns 0; the chain up to the call of [run], followed by the exit of
    [usage] or by nothing more, when the task ends the process.  At the
    end no callback is owed. *)
Theorem lifecycle_order dflt env argv :
  let r := main dflt env argv in
  let t := trace (snd r) in
  increasing (ranks t) = true
  /\ only_after is_on_logger_ready is_runner_run t = true
  /\ only_after is_runner_returned is_controller_shutdown t = true
  /\ only_after is_on_logger_shutdown is_pool_shutdown t = true
  /\ only_after is_pool_shutdown is_normal_exit t = true
  /\ ((fst r = Done 0 /\ ranks t = [0; 1; 2; 3; 4; 5; 6]%nat)
      \/ (fst r = Ended (Exited 255) /\ ranks t = [0; 1; 6]%nat)
      \/ (fst r = Ended Fatal /\ ranks t = [0; 1]%nat))
  /\ only_after is_controller_start is_ready_callback t = true
  /\ only_after (activation_complete env) is_on_logger_ready t = true
  /\ only_after (activation_complete env) is_runner_run t = true
  /\ only_after is_controller_shutdown is_shutdown_callback t = true
  /\ only_after (deactivation_complete env) is_on_logger_shutdown t = true
  /\ only_after (deactivation_complete env) is_pool_shutdown t = true
  /\ only_after is_pool_shutdown is_pool_stopped t = true
  /\ ((fst r = Done 0
       /\ places t = places_to_run env ++ places_from_return env)
      \/ (fst r = Ended (Exited 255)
          /\ places t = places_to_run env ++ [10]%nat)
      \/ (fst r = Ended Fatal /\ places t = places_to_run env))
  /\ ready_pending (snd r) = false
  /\ shutdown_pending (snd r) = false.
Proof.
  cbv zeta.
  destruct (parse_cmd_args dflt argv) as [cfg|[name|msg|]] eqn:P.
  - destruct (dumpfile_returns env cfg) eqn:D.
    + rewrite (main_returns dflt env argv cfg P D).
      cbn [fst snd trace ready_pending shutdown_pending].
      unfold before_ready, after_run, activation_complete,
        deactivation_complete, places_to_run, places_from_return.
      destruct (start_inline env), (shutdown_inline env);
        (repeat match goal with |- _ /\ _ => split end; try reflexivity);
        left; split; reflexivity.
    + rewrite (main_engine_fails dflt env argv cfg P D).
      cbn [fst snd trace ready_pending shutdown_pending].
      unfold before_ready, activation_complete, deactivation_complete,
        places_to_run.
      destruct (start_inline env), (shutdown_inline env);
        (repeat match goal with |- _ /\ _ => split end; try reflexivity);
        right; right; split; reflexivity.
  - rewrite (main_usage dflt env argv name P).
    cbn [fst snd trace ready_pending shutdown_pending].
    unfold before_ready, activation_complete, deactivation_complete,
      places_to_run.
    destruct (start_inline env), (shutdown_inline env);
      (repeat match goal with |- _ /\ _ => split end; try reflexivity);
      right; left; split; reflexivity.
  - rewrite (main_failure dflt env argv msg P).
    cbn [fst snd trace ready_pending shutdown_pending].
    unfold before_ready, activation_complete, deactivation_complete,
      places_to_run.
    destruct (start_inline env), (shutdown_inline env);
      (repeat match goal with |- _ /\ _ => split end; try reflexivity);
      right; right; split; reflexivity.
  - elim (parse_cmd_args_finishes dflt argv P).
Qed.

(** * Decimal numbers and the overrides *)














(** * The fields after a scan *)

Lemma run_items_override_field argv0 o items : forall c c',
  run_items argv0 items c = Ok c' ->
  override_field o c'
  = match last_override o items with
    | Some v => override_value v
    | None => override_field o c
    end.
Proof.
  induction items as [|i items IH]; intros c c' H.
  - inversion H. reflexivity.
  - cbn [run_items] in H.
    destruct (run_item argv0 i c) as [c1|] eqn:E; [|discriminate].
    cbn [bind] in H. rewrite (IH _ _ H).
    destruct i as [g sp v|p j v|long|s]; cbn [last_override].
    + rewrite run_path in E. inversion E; subst.
      destruct (last_override o items); [reflexivity|].
      apply override_field_set_path.
    + rewrite run_override in E.
      destruct (override_accepted v); [|discriminate]. inversion E; subst.
      destruct (last_override o items); [reflexivity|].
      rewrite override_field_set_override, (Z.eqb_sym (override_code p)).
      destruct (override_code o =? override_code p); reflexivity.
    + rewrite run_help in E. discriminate.
    + inversion E; subst. reflexivity.
Qed.

Lemma last_override_accepted o items : forall a,
  forallb passes items = true ->
  last_override o items = Some a -> override_accepted a = true.
Proof.
  induction items as [|i items IH]; intros a Hp L; [discriminate|].
  cbn [forallb] in Hp. apply andb_true_iff in Hp as [Hi Hp].
  destruct i as [g sp v|p j v|long|s]; cbn [last_override] in L;
    try (apply IH; assumption).
  destruct (last_override o items) as [a'|].
  - apply IH; assumption.
  - destruct (override_code o =? override_code p); [|discriminate].
    inversion L; subst. exact Hi.
Qed.

Lemma override_field_init dflt o : override_field o (init dflt) = 0.
Proof. destruct o; reflexivity. Qed.


(** The scan of items that pass gives a configuration whose fields are
    those of the last occurrences, and the outcome of the parser is that
    of the checks of lines 114-128 on it. *)
Lemma scan_passes dflt argv0 items :
  forallb passes items = true ->
  exists c,
    run_items argv0 items (init dflt) = Ok c
    /\ parse_cmd_args dflt (argv0 :: render items)
       = sanity_check (operands items) c
    /\ (forall g, path_field g c
                  = match last_path g items with
                    | Some a => Some a
                    | None => path_field g (init dflt)
                    end)
    /\ (forall o, override_field o c
                  = match last_override o items with
                    | Some a => override_value a
                    | None => 0
                    end).
Proof.
  intros Hp. destruct (run_items_passes argv0 items (init dflt) Hp) as [c R].
  exists c. split; [exact R|]. split.
  { rewrite parse_items by (apply passes_well_formed, Hp). rewrite R. reflexivity. }
  split.
  - intros g. apply (run_items_path_field argv0 g _ _ _ R).
  - intros o. rewrite (run_items_override_field argv0 o _ _ _ R).
    rewrite override_field_init. reflexivity.
Qed.

(** Items that pass, without operands, with an input file and with
    sizes that agree, are accepted. *)
Lemma parse_accepts dflt argv0 items inp :
  forallb passes items = true ->
  operands items = [] ->
  aligned items = true ->
  last_path FlagFile items = Some inp ->
  inp <> "" ->
  exists cfg,
    parse_cmd_args dflt (argv0 :: render items) = Ok cfg
    /\ run_items argv0 items (init dflt) = Ok cfg.
Proof.
  intros Hp Hops Hal Hin Hne.
  destruct (scan_passes dflt argv0 items Hp) as (c & R & P & F & O).
  exists c. split; [|exact R]. rewrite P, Hops.
  pose proof (F FlagFile) as Fi. rewrite Hin in Fi. cbn [path_field] in Fi.
  inversion Fi as [Fi']. clear Fi.
  pose proof (O ForceBlockSize) as Ob. pose proof (O ForceExtentSize) as Oe.
  cbn [override_field] in Ob, Oe.
  unfold sanity_check. rewrite Fi'.
  destruct (String.eqb_spec inp ""); [contradiction|].
  rewrite Ob, Oe. unfold aligned in Hal.
  destruct (last_override ForceBlockSize items) as [sb|] eqn:Lb;
    [|rewrite andb_false_r; reflexivity].
  destruct (last_override ForceExtentSize items) as [se|] eqn:Le;
    [|reflexivity].
  pose proof (accepted_value sb (last_override_accepted _ _ _ Hp Lb)).
  pose proof (accepted_value se (last_override_accepted _ _ _ Hp Le)).
  rewrite Z.rem_mod_nonneg by lia. rewrite Hal.
  rewrite andb_false_r. reflexivity.
Qed.

(** * The overrides that are refused, and the sizes that disagree *)







(** * A path flag given more than once *)

(** C9: the cases of the path flags only store the argument and never
    fail.  On every argument list from which [parse_cmd_args] returns, the
    field of a path flag holds the argument [getopt_long] reported with
    the last occurrence of the flag, and the default when it reported
    none.  On a command line in which a path flag, in any spelling, is
    followed later by the same flag, the earlier occurrence changes
    nothing: the parser gives the same result as without it.  When
    nothing else on that command line stops the scan, the scan comes to
    its end with the field holding the argument of the last occurrence,
    and the outcome is that of the checks of lines 114-128; and when
    there is no operand, the last input path is not empty and the sizes
    agree, [parse_cmd_args] returns a configuration, in which every path
    field holds the argument of the last occurrence of its flag and
    every override that of its last occurrence. *)
Theorem last_path_flag_wins dflt argv0 pre f sp v post w :
  forallb well_formed (pre ++ post) = true ->
  last_path f post = Some w ->
  (forall a config,
     switch_option argv0 (path_code f) a config = Ok (set_path f a config))
  /\ (forall argv cfg,
        parse_cmd_args dflt argv = Ok cfg ->
        path_field f cfg
        = match last_arg (path_code f) (options_of argv) with
          | Some a => Some a
          | None => path_field f (init dflt)
          end)
  /\ parse_cmd_args dflt (argv0 :: render (pre ++ Path f sp v :: post))
     = parse_cmd_args dflt (argv0 :: render (pre ++ post))
  /\ (forall cfg,
       parse_cmd_args dflt (argv0 :: render (pre ++ Path f sp v :: post)) = Ok cfg ->
       path_field f cfg = Some w)
  /\ (forallb passes (pre ++ post) = true ->
      exists c,
        run_items argv0 (pre ++ Path f sp v :: post) (init dflt) = Ok c
        /\ path_field f c = Some w
        /\ parse_cmd_args dflt (argv0 :: render (pre ++ Path f sp v :: post))
           = sanity_check (operands (pre ++ post)) c)
  /\ (forallb passes (pre ++ post) = true ->
      operands (pre ++ post) = [] ->
      aligned (pre ++ post) = true ->
      forall inp,
        last_path FlagFile (pre ++ Path f sp v :: post) = Some inp ->
        inp <> "" ->
        exists cfg,
          parse_cmd_args dflt (argv0 :: render (pre ++ Path f sp v :: post))
          = Ok cfg
          /\ path_field f cfg = Some w
          /\ (forall g,
                path_field g cfg
                = match last_path g (pre ++ Path f sp v :: post) with
                  | Some a => Some a
                  | None => path_field g (init dflt)
                  end)
          /\ (forall o,
                override_field o cfg
                = match last_override o (pre ++ post) with
                  | Some a => override_value a
                  | None => 0
                  end)).
Proof.
  intros Hwf L.
  split; [intros a config; destruct f; reflexivity|].
  split.
  { intros argv cfg H. unfold parse_cmd_args in H. unfold options_of.
    destruct (scan_options _ _ _ _) as [[s c]|] eqn:S; [|discriminate].
    cbn [bind fst snd] in H. apply sanity_check_returns in H as (-> & _).
    apply (scan_options_path_field _ f _ _ _ _ _ S). }
  assert (Hwf' : forallb well_formed (pre ++ Path f sp v :: post) = true).
  { rewrite forallb_app in *. cbn [forallb well_formed]. exact Hwf. }
  assert (Lw : last_path f (pre ++ Path f sp v :: post) = Some w).
  { rewrite last_path_app. cbn [last_path]. rewrite L. reflexivity. }
  assert (Ops : operands (pre ++ Path f sp v :: post) = operands (pre ++ post)).
  { rewrite !operands_app. reflexivity. }
  assert (Ovr : forall o, last_override o (pre ++ Path f sp v :: post)
                          = last_override o (pre ++ post)).
  { intros o. clear. induction pre as [|i pre IH]; [reflexivity|].
    cbn [app last_override]. rewrite IH. reflexivity. }
  assert (Pass : forallb passes (pre ++ post) = true ->
                 forallb passes (pre ++ Path f sp v :: post) = true).
  { rewrite !forallb_app. cbn [forallb passes]. auto. }
  split.
  { rewrite !parse_items by assumption.
    rewrite !operands_app. cbn [operands].
    rewrite !run_items_app.
    destruct (run_items argv0 pre (init dflt)) as [c|]; cbn [bind]; [|reflexivity].
    cbn [run_items]. rewrite run_path. cbn [bind].
    rewrite (run_items_shadow argv0 f v post w c L). reflexivity. }
  split.
  { intros cfg H. rewrite parse_items in H by assumption.
    destruct (run_items argv0 (pre ++ Path f sp v :: post) (init dflt))
      as [c|] eqn:R; [|discriminate].
    cbn [bind] in H. apply sanity_check_returns in H as (-> & _).
    rewrite (run_items_path_field argv0 f _ _ _ R), Lw. reflexivity. }
  split.
  { intros Hp.
    destruct (scan_passes dflt argv0 _ (Pass Hp)) as (c & R & P & F & _).
    exists c. split; [exact R|]. split.
    - rewrite (F f), Lw. reflexivity.
    - rewrite P, Ops. reflexivity. }
  intros Hp Hops Hal inp Hin Hne.
  assert (Hal' : aligned (pre ++ Path f sp v :: post) = true).
  { unfold aligned. rewrite !Ovr. exact Hal. }
  assert (Hops' : operands (pre ++ Path f sp v :: post) = [])
    by (rewrite Ops; exact Hops).
  destruct (parse_accepts dflt argv0 _ inp (Pass Hp) Hops' Hal' Hin Hne)
    as (cfg & P & R).
  exists cfg. split; [exact P|]. split.
  { rewrite (run_items_path_field argv0 f _ _ _ R), Lw. reflexivity. }
  split.
  - intros g. apply (run_items_path_field argv0 g _ _ _ R).
  - intros o. rewrite (run_items_override_field argv0 o _ _ _ R), Ovr.
    rewrite override_field_init. reflexivity.
Qed.

Lemma last_path_flag_wins_witness :
  parse_cmd_args "dump.out"
    ["extract"; "-l"; "a.log"; "-f"; "old.bin"; "--log-file=b.log";
     "--file"; "new.bin"; "-o"; "x"; "--output-file"; "y"]
  = Ok {| input_file := "new.bin"; log_file := Some "b.log"; output_file := "y";
          overrides := {| block_size := 0; extent_size := 0; mod_count := 0 |} |}
  /\ parse_cmd_args "dump.out"
       ["extract"; "-l"; "a.log"; "--log-file=b.log";
        "--file"; "new.bin"; "-o"; "x"; "--output-file"; "y"]
     = Ok {| input_file := "new.bin"; log_file := Some "b.log";
             output_file := "y";
             overrides := {| block_size := 0; extent_size := 0;
                             mod_count := 0 |} |}.
Proof.
  destruct (last_path_flag_wins "dump.out" "extract"
              [Path FlagLog Short "a.log"] FlagFile Short "old.bin"
              [Path FlagLog LongEq "b.log"; Path FlagFile Long "new.bin";
               Path FlagOutput Short "x"; Path FlagOutput Long "y"]
              "new.bin" eq_refl eq_refl) as (_ & _ & H1 & _ & _ & H3).
  assert (Hne : "new.bin" <> "") by (intros H; discriminate H).
  destruct (H3 eq_refl eq_refl eq_refl "new.bin" eq_refl Hne)
    as (cfg & P & _ & F & O).
  assert (E : cfg = {| input_file := "new.bin"; log_file := Some "b.log";
                       output_file := "y";
                       overrides := {| block_size := 0; extent_size := 0;
                                       mod_count := 0 |} |}).
  { pose proof (F FlagFile) as F1. pose proof (F FlagLog) as F2.
    pose proof (F FlagOutput) as F3.
    pose proof (O ForceBlockSize) as O1. pose proof (O ForceExtentSize) as O2.
    pose proof (O ForceModCount) as O3.
    destruct cfg as [i l o [b e m]].
    cbn in F1, F2, F3, O1, O2, O3.
    inversion F1. inversion F2. inversion F3. subst. reflexivity. }
  rewrite <- E. split; [exact P|exact (eq_trans (eq_sym H1) P)].
Defined.
